(** * DeLogger: the line classifier and the audit-record lifecycle of
      [main.go], embedded in Rocq.

    Go strings are byte sequences; they are modelled as [list ascii].  The
    library functions [main.go] calls ([strings.Split], [strings.TrimSpace],
    [regexp], [encoding/json], [net/http]) are modelled by their Go
    semantics at the byte level; the code of [parseHandler] and [recordLog]
    is transcribed statement by statement. *)

From Stdlib Require Import List Ascii String NArith Arith Lia Bool.
From stdpp Require Import base option list strings gmap.
Import ListNotations.

Open Scope list_scope.

(** ** Go strings *)

Abbreviation gostring := (list ascii).

(** A string literal of the source. *)
Definition go (s : string) : gostring := list_ascii_of_string s.

(** The numeric value of a byte. *)
Definition code (c : ascii) : N := N_of_ascii c.

Definition chr (n : N) : ascii := ascii_of_N n.

Definition HT : ascii := Eval compute in chr 9.
Definition LF : ascii := Eval compute in chr 10.
Definition VT : ascii := Eval compute in chr 11.
Definition FF : ascii := Eval compute in chr 12.
Definition CR : ascii := Eval compute in chr 13.
Definition SP : ascii := Eval compute in chr 32.
Definition DQUOTE : ascii := Eval compute in chr 34.
Definition BACKSLASH : ascii := Eval compute in chr 92.

Definition beq (a b : ascii) : bool := Ascii.eqb a b.

(** [s == ""]. *)
Definition isEmpty (s : gostring) : bool :=
  match s with [] => true | _ :: _ => false end.

(** ** unicode/utf8 *)

Module utf8.

Definition RuneError : N := 65533.  (* U+FFFD *)
Definition RuneSelf : N := 128.
Definition UTFMax : nat := 4.

(** The entry of the table [first] for a leading byte: ASCII, invalid, or
    the length of the sequence with the range accepted for its second
    byte. *)
Inductive firstInfo :=
| As
| Xx
| Lead (size : nat) (lo hi : N).

Definition first (b : N) : firstInfo :=
  if (b <? 128)%N then As
  else if (b <? 194)%N then Xx                       (* 0x80-0xC1 *)
  else if (b <? 224)%N then Lead 2 128 191           (* 0xC2-0xDF *)
  else if (b =? 224)%N then Lead 3 160 191           (* 0xE0 *)
  else if (b <? 237)%N then Lead 3 128 191           (* 0xE1-0xEC *)
  else if (b =? 237)%N then Lead 3 128 159           (* 0xED *)
  else if (b <? 240)%N then Lead 3 128 191           (* 0xEE-0xEF *)
  else if (b =? 240)%N then Lead 4 144 191           (* 0xF0 *)
  else if (b <? 244)%N then Lead 4 128 191           (* 0xF1-0xF3 *)
  else if (b =? 244)%N then Lead 4 128 143           (* 0xF4 *)
  else Xx.                                           (* 0xF5-0xFF *)

(** A continuation byte, 0x80-0xBF ([locb]..[hicb]). *)
Definition isCont (b : N) : bool := (128 <=? b)%N && (b <=? 191)%N.

Definition inRange (lo hi b : N) : bool := (lo <=? b)%N && (b <=? hi)%N.

(** [utf8.DecodeRuneInString]: the first rune of [s] and its width in
    bytes; an invalid or truncated sequence is [RuneError] of width 1, the
    empty string is [RuneError] of width 0. *)
Definition DecodeRuneInString (s : gostring) : N * nat :=
  match s with
  | [] => (RuneError, 0)
  | c0 :: s1 =>
    let s0 := code c0 in
    match first s0 with
    | As => (s0, 1)
    | Xx => (RuneError, 1)
    | Lead sz lo hi =>
      match s1 with
      | [] => (RuneError, 1)
      | c1 :: s2 =>
        let b1 := code c1 in
        if negb (inRange lo hi b1) then (RuneError, 1)
        else if sz <=? 2 then (N.lor (N.shiftl (N.land s0 31) 6) (N.land b1 63), 2)
        else
          match s2 with
          | [] => (RuneError, 1)
          | c2 :: s3 =>
            let b2 := code c2 in
            if negb (isCont b2) then (RuneError, 1)
            else if sz <=? 3 then
              (N.lor (N.lor (N.shiftl (N.land s0 15) 12)
                            (N.shiftl (N.land b1 63) 6))
                     (N.land b2 63), 3)
            else
              match s3 with
              | [] => (RuneError, 1)
              | c3 :: _ =>
                let b3 := code c3 in
                if negb (isCont b3) then (RuneError, 1)
                else
                  (N.lor (N.lor (N.lor (N.shiftl (N.land s0 7) 18)
                                       (N.shiftl (N.land b1 63) 12))
                                (N.shiftl (N.land b2 63) 6))
                         (N.land b3 63), 4)
              end
          end
      end
    end
  end.

(** The runes of [s] in order, each with the bytes that encode it: what
    [for i, r := range s] visits. *)
Fixpoint runesFuel (fuel : nat) (s : gostring) : list (N * gostring) :=
  match fuel with
  | 0 => []
  | S fuel' =>
    match s with
    | [] => []
    | _ :: _ =>
      let '(r, size) := DecodeRuneInString s in
      (r, take size s) :: runesFuel fuel' (drop size s)
    end
  end.

Definition runes (s : gostring) : list (N * gostring) :=
  runesFuel (length s) s.

(** The bytes of a sequence of decoded runes. *)
Definition bytes (rs : list (N * gostring)) : gostring :=
  concat (map snd rs).

End utf8.

(** ** unicode *)

Module unicode.

(** [unicode.IsSpace]: the Latin-1 cases of the source, then the
    [White_Space] table. *)
Definition IsSpace (r : N) : bool :=
  if (r <=? 255)%N then
    (r =? 9)%N || (r =? 10)%N || (r =? 11)%N || (r =? 12)%N || (r =? 13)%N
    || (r =? 32)%N || (r =? 133)%N || (r =? 160)%N
  else
    (r =? 5760)%N                                   (* U+1680 *)
    || ((8192 <=? r)%N && (r <=? 8202)%N)           (* U+2000-U+200A *)
    || (r =? 8232)%N || (r =? 8233)%N               (* U+2028, U+2029 *)
    || (r =? 8239)%N                                (* U+202F *)
    || (r =? 8287)%N                                (* U+205F *)
    || (r =? 12288)%N.                              (* U+3000 *)

End unicode.

(** ** strings *)

Module strings.

Fixpoint dropWhile {A} (f : A -> bool) (l : list A) : list A :=
  match l with
  | [] => []
  | x :: l' => if f x then dropWhile f l' else l
  end.

(** Drops the longest suffix whose elements all satisfy [f]. *)
Fixpoint dropWhileEnd {A} (f : A -> bool) (l : list A) : list A :=
  match l with
  | [] => []
  | x :: l' =>
    match dropWhileEnd f l' with
    | [] => if f x then [] else [x]
    | l'' => x :: l''
    end
  end.

(** [strings.TrimLeftFunc]: [s] from its first rune that does not satisfy
    [f]. *)
Definition TrimLeftFunc (s : gostring) (f : N -> bool) : gostring :=
  utf8.bytes (dropWhile (fun rb => f (fst rb)) (utf8.runes s)).

(** [strings.TrimRightFunc]: [s] up to its last rune that does not satisfy
    [f]. *)
Definition TrimRightFunc (s : gostring) (f : N -> bool) : gostring :=
  utf8.bytes (dropWhileEnd (fun rb => f (fst rb)) (utf8.runes s)).

Definition TrimFunc (s : gostring) (f : N -> bool) : gostring :=
  TrimRightFunc (TrimLeftFunc s f) f.

(** [strings.TrimSpace]: [s] without its leading and trailing white space,
    as defined by Unicode. *)
Definition TrimSpace (s : gostring) : gostring :=
  TrimFunc s unicode.IsSpace.

(** [strings.Split(s, sep)] for a separator of one byte: the segments of
    [s] between the occurrences of [sep], one more than there are
    occurrences. *)
Fixpoint Split (s : gostring) (sep : ascii) : list gostring :=
  match s with
  | [] => [[]]
  | c :: s' =>
    if beq c sep then [] :: Split s' sep
    else
      match Split s' sep with
      | seg :: segs => (c :: seg) :: segs
      | [] => [[c]]
      end
  end.

End strings.

(** ** regexp *)

Module regexp.

(** The syntax tree of a pattern, for the operators [main.go] uses. *)
Inductive Regexp :=
| BeginText                                   (* ^ *)
| EndText                                     (* $ *)
| Literal (c : ascii)
| CharClass (p : ascii -> bool)
| Concat (r1 r2 : Regexp)
| Star (greedy : bool) (r : Regexp)           (* r* and r*? *)
| Capture (n : nat) (r : Regexp).

(** [r+] and [r+?]. *)
Definition Plus (greedy : bool) (r : Regexp) : Regexp :=
  Concat r (Star greedy r).

Fixpoint Seq (rs : list Regexp) (last : Regexp) : Regexp :=
  match rs with
  | [] => last
  | r :: rs' => Concat r (Seq rs' last)
  end.

(** [.] without the flag [s]: any character but a newline.  A rune of
    several bytes, and each byte of an invalid sequence, matches [.]; a
    byte below 0x80 is always a rune of its own, so at the positions next
    to an ASCII character matching bytes and matching runes agree. *)
Definition anyCharNotNL (c : ascii) : bool := negb (beq c LF).

(** The Perl class [\s]: tab, newline, form feed, carriage return and
    space (no vertical tab). *)
Definition perlSpace (c : ascii) : bool :=
  beq c HT || beq c LF || beq c FF || beq c CR || beq c SP.

(** The submatches found so far, by group number. *)
Abbreviation caps := (gmap nat gostring).

Abbreviation cont := (gostring -> caps -> option (gostring * caps)).

(** The loop of a star whose body is matched by [step]: an iteration has
    to consume input, and at most [fuel] iterations are made. *)
Fixpoint starLoop (step : gostring -> caps -> cont -> option (gostring * caps))
         (greedy : bool) (k : cont) (fuel : nat) (s : gostring) (c : caps)
  : option (gostring * caps) :=
  match fuel with
  | 0 => None
  | S fuel' =>
    let more s' c' :=
      if length s' <? length s then starLoop step greedy k fuel' s' c'
      else None in
    if greedy then
      match step s c more with
      | Some m => Some m
      | None => k s c
      end
    else
      match k s c with
      | Some m => Some m
      | None => step s c more
      end
  end.

(** The backtracking matcher, in continuation-passing style: [run text r s
    c k] matches [r] at the suffix [s] of [text] and hands what is left to
    [k]; alternatives are tried in the order of preference of the
    leftmost-first semantics (a greedy star tries one more iteration
    first, a lazy one tries to stop first). *)
Fixpoint run (text : gostring) (r : Regexp) (s : gostring) (c : caps)
         (k : cont) : option (gostring * caps) :=
  match r with
  | BeginText => if length s =? length text then k s c else None
  | EndText => match s with [] => k s c | _ :: _ => None end
  | Literal a =>
    match s with
    | x :: s' => if beq x a then k s' c else None
    | [] => None
    end
  | CharClass p =>
    match s with
    | x :: s' => if p x then k s' c else None
    | [] => None
    end
  | Concat r1 r2 => run text r1 s c (fun s' c' => run text r2 s' c' k)
  | Capture n r1 =>
    run text r1 s c
        (fun s' c' => k s' (<[n := take (length s - length s') s]> c'))
  | Star greedy r1 => starLoop (run text r1) greedy k (S (length s)) s c
  end.

(** The first position of [text], from the left, at which [re] matches. *)
Fixpoint search (re : Regexp) (text s : gostring)
  : option (gostring * gostring * caps) :=
  match run text re s ∅ (fun s' c => Some (s', c)) with
  | Some (s', c) => Some (s, s', c)
  | None =>
    match s with
    | [] => None
    | _ :: s' => search re text s'
    end
  end.

Fixpoint NumSubexp (re : Regexp) : nat :=
  match re with
  | Concat r1 r2 => NumSubexp r1 + NumSubexp r2
  | Star _ r => NumSubexp r
  | Capture _ r => S (NumSubexp r)
  | _ => 0
  end.

(** [FindStringSubmatch] of a compiled pattern: nil when there is no match,
    else the text of the leftmost match followed by the text of each group
    (empty for a group that took no part). *)
Definition FindStringSubmatch (re : Regexp) (s : gostring) : list gostring :=
  match search re s s with
  | None => []
  | Some (from, rest, c) =>
    take (length from - length rest) from
    :: map (fun n => default [] (c !! n)) (seq 1 (NumSubexp re))
  end.

End regexp.

(** ** main.go: the line classifier *)

(** [LogEntry]: an absent field is the empty string. *)
Record LogEntry := mkLogEntry {
  Timestamp : gostring;
  Level : gostring;
  Message : gostring;
  Raw : gostring
}.

(** The pattern of line 149: start of text, a bracketed lazy group, white
    space, a second bracketed lazy group, white space, a greedy group, end of
    text. *)
Definition logRegex : regexp.Regexp :=
  let dot := regexp.CharClass regexp.anyCharNotNL in
  let space := regexp.CharClass regexp.perlSpace in
  regexp.Seq
    [ regexp.BeginText;
      regexp.Literal "["; regexp.Capture 1 (regexp.Star false dot);
      regexp.Literal "]"; regexp.Plus true space;
      regexp.Literal "["; regexp.Capture 2 (regexp.Star false dot);
      regexp.Literal "]"; regexp.Plus true space;
      regexp.Capture 3 (regexp.Star true dot) ]
    regexp.EndText.

(** Lines 154-159: the entry appended for a trimmed, non-empty line. *)
Definition classifyLine (line : gostring) : LogEntry :=
  let match_ := regexp.FindStringSubmatch logRegex line in
  if length match_ =? 4 then
    {| Timestamp := nth 1 match_ []; Level := nth 2 match_ [];
       Message := nth 3 match_ []; Raw := [] |}
  else
    {| Timestamp := []; Level := []; Message := []; Raw := line |}.

(** ** Go slices and results *)

(** A slice is nil or holds elements; [append] never returns nil. *)
Definition slice (A : Type) : Type := option (list A).

Definition elems {A} (s : slice A) : list A := default [] s.

Definition len {A} (s : slice A) : nat := length (elems s).

Definition append {A} (s : slice A) (x : A) : slice A := Some (elems s ++ [x]).

(** A value with the error Go returns beside it. *)
Inductive result (A : Type) :=
| Ok (a : A)
| Err (e : gostring).
Arguments Ok {A} a.
Arguments Err {A} e.

(** ** encoding/json *)

Module json.

Definition hex (n : N) : ascii :=
  nth (N.to_nat n) (go "0123456789abcdef") "0"%char.

(** [htmlSafeSet]: the ASCII bytes copied as they are when HTML escaping
    is on (the default of [json.Marshal]). *)
Definition htmlSafe (c : ascii) : bool :=
  (32 <=? code c)%N && (code c <? 128)%N
  && negb (beq c DQUOTE) && negb (beq c BACKSLASH)
  && negb (beq c "<") && negb (beq c ">") && negb (beq c "&").

(** The escape of an ASCII byte outside [htmlSafeSet] (backspace and form
    feed have their short escapes since Go 1.22). *)
Definition escapeByte (c : ascii) : gostring :=
  if beq c BACKSLASH || beq c DQUOTE then [BACKSLASH; c]
  else if beq c (chr 8) then [BACKSLASH; "b"%char]
  else if beq c FF then [BACKSLASH; "f"%char]
  else if beq c LF then [BACKSLASH; "n"%char]
  else if beq c CR then [BACKSLASH; "r"%char]
  else if beq c HT then [BACKSLASH; "t"%char]
  else [BACKSLASH; "u"%char; "0"%char; "0"%char;
        hex (N.shiftr (code c) 4); hex (N.land (code c) 15)].

(** The body of the loop of [appendString], without the quotes. *)
Fixpoint escapeFuel (fuel : nat) (src : gostring) : gostring :=
  match fuel with
  | 0 => []
  | S fuel' =>
    match src with
    | [] => []
    | b :: src' =>
      if (code b <? utf8.RuneSelf)%N then
        if htmlSafe b then b :: escapeFuel fuel' src'
        else escapeByte b ++ escapeFuel fuel' src'
      else
        let '(c, size) := utf8.DecodeRuneInString (take utf8.UTFMax src) in
        if (c =? utf8.RuneError)%N && (size =? 1) then
          BACKSLASH :: go "ufffd" ++ escapeFuel fuel' (drop size src)
        else if (c =? 8232)%N || (c =? 8233)%N then
          BACKSLASH :: go "u202" ++ hex (N.land c 15)
                    :: escapeFuel fuel' (drop size src)
        else take size src ++ escapeFuel fuel' (drop size src)
    end
  end.

(** [appendString]: a Go string as a JSON string literal. *)
Definition appendString (src : gostring) : gostring :=
  DQUOTE :: escapeFuel (length src) src ++ [DQUOTE].

(** A field of a struct as the encoder sees it: its JSON name, whether its
    tag has [omitempty], and its value (all fields here are strings). *)
Record field := mkField {
  name : gostring;
  omitEmpty : bool;
  value : gostring
}.

(** The loop of [structEncoder.encode]: [next] is the byte to write before
    the next field. *)
Definition encodeField (st : ascii * gostring) (f : field) : ascii * gostring :=
  let '(next, out) := st in
  if omitEmpty f && isEmpty (value f) then (next, out)
  else (","%char,
        out ++ [next] ++ DQUOTE :: name f ++ [DQUOTE; ":"%char]
            ++ appendString (value f)).

Definition encodeStruct (fs : list field) : gostring :=
  let '(next, out) := fold_left encodeField fs ("{"%char, []) in
  if beq next "{" then out ++ go "{}" else out ++ go "}".

(** The keys of the object [encodeStruct] writes. *)
Definition objectKeys (fs : list field) : list gostring :=
  map name (List.filter (fun f => negb (omitEmpty f && isEmpty (value f))) fs).

Fixpoint join (sep : gostring) (parts : list gostring) : gostring :=
  match parts with
  | [] => []
  | [p] => p
  | p :: ps => p ++ sep ++ join sep ps
  end.

(** The slice encoder: [null] for a nil slice, else the elements between
    brackets. *)
Definition encodeSlice {A} (enc : A -> gostring) (s : slice A) : gostring :=
  match s with
  | None => go "null"
  | Some l => go "[" ++ join (go ",") (map enc l) ++ go "]"
  end.

End json.

(** ** main.go: the data model *)

(** The fields of [LogEntry] with their tags, in the order of declaration. *)
Definition LogEntry_fields (e : LogEntry) : list json.field :=
  [ json.mkField (go "timestamp") true (Timestamp e);
    json.mkField (go "level") true (Level e);
    json.mkField (go "message") true (Message e);
    json.mkField (go "raw") true (Raw e) ].

(** [json.Marshal] of a [[]LogEntry]; no value of this type fails to
    encode. *)
Definition Marshal (v : slice LogEntry) : result gostring :=
  Ok (json.encodeSlice (fun e => json.encodeStruct (LogEntry_fields e)) v).

(** [LogRecord]; its field [Timestamp] is [rTimestamp] here. *)
Record LogRecord := mkLogRecord {
  rTimestamp : N;                  (* time.Time, as an instant *)
  RemoteAddr : gostring;
  RequestBody : gostring;
  ResponseBody : slice ascii;      (* json.RawMessage *)
  StatusCode : nat;
  ErrorMsg : gostring
}.

Definition set_RequestBody (b : gostring) (r : LogRecord) : LogRecord :=
  mkLogRecord (rTimestamp r) (RemoteAddr r) b (ResponseBody r)
              (StatusCode r) (ErrorMsg r).

Definition set_ResponseBody (b : slice ascii) (r : LogRecord) : LogRecord :=
  mkLogRecord (rTimestamp r) (RemoteAddr r) (RequestBody r) b
              (StatusCode r) (ErrorMsg r).

Definition set_StatusCode (n : nat) (r : LogRecord) : LogRecord :=
  mkLogRecord (rTimestamp r) (RemoteAddr r) (RequestBody r) (ResponseBody r)
              n (ErrorMsg r).

Definition set_ErrorMsg (m : gostring) (r : LogRecord) : LogRecord :=
  mkLogRecord (rTimestamp r) (RemoteAddr r) (RequestBody r) (ResponseBody r)
              (StatusCode r) m.

(** ** net/http *)

Module http.

Definition StatusOK : nat := 200.
Definition StatusMethodNotAllowed : nat := 405.
Definition StatusInternalServerError : nat := 500.
Definition MethodPost : gostring := go "POST".

(** What a handler has done to its [ResponseWriter]: the header map it can
    still change, and what it has handed over so far (the status and the
    headers frozen by [WriteHeader], the bytes given to [Write]). *)
Record ResponseWriter := mkWriter {
  header : gmap gostring (list gostring);
  wroteHeader : bool;
  status : nat;
  sentHeader : gmap gostring (list gostring);
  body : gostring
}.

Definition newWriter : ResponseWriter := mkWriter ∅ false 0 ∅ [].

(** [w.Header().Set(key, value)]. *)
Definition Header_Set (key value : gostring) (w : ResponseWriter)
  : ResponseWriter :=
  mkWriter (<[key := [value]]> (header w)) (wroteHeader w) (status w)
           (sentHeader w) (body w).

(** [w.Header().Del(key)]. *)
Definition Header_Del (key : gostring) (w : ResponseWriter) : ResponseWriter :=
  mkWriter (delete key (header w)) (wroteHeader w) (status w)
           (sentHeader w) (body w).

(** [w.WriteHeader(code)]: the first call fixes the status and the
    headers. *)
Definition WriteHeader (code : nat) (w : ResponseWriter) : ResponseWriter :=
  if wroteHeader w then w
  else mkWriter (header w) true code (header w) (body w).

(** [w.Write(b)]: writes the header with status 200 when none was written
    yet. *)
Definition Write (b : gostring) (w : ResponseWriter) : ResponseWriter :=
  let w := WriteHeader StatusOK w in
  mkWriter (header w) (wroteHeader w) (status w) (sentHeader w) (body w ++ b).

(** [http.Error(w, error, code)]. *)
Definition Error (error : gostring) (code : nat) (w : ResponseWriter)
  : ResponseWriter :=
  let w := Header_Del (go "Content-Length") w in
  let w := Header_Set (go "Content-Type") (go "text/plain; charset=utf-8") w in
  let w := Header_Set (go "X-Content-Type-Options") (go "nosniff") w in
  let w := WriteHeader code w in
  Write (error ++ [LF]) w.

(** The request as the handler reads it; [Body] is what [io.ReadAll] of the
    body returns, [ReqRemoteAddr] is the field [RemoteAddr] of the
    request. *)
Record Request := mkRequest {
  Method : gostring;
  URLPath : gostring;
  ReqRemoteAddr : gostring;
  Body : result gostring
}.

End http.

(** ** The world outside the handler *)

(** The lines [log.Printf] writes, by call site. *)
Inductive LogLine :=
| LogReceived (addr method path : gostring)
| LogRejected (addr method : gostring)
| LogReadError (addr err : gostring)
| LogSize (n : nat)
| LogMarshalError (addr err : gostring)
| LogWriteError (addr err : gostring)
| LogSent (addr : gostring)
| LogInsertFailed (err : gostring).

Inductive Event :=
| EvLog (l : LogLine)
| EvReadAll                       (* io.ReadAll(r.Body) *)
| EvExec (record : LogRecord).    (* dbPool.Exec with the INSERT statement *)

(** The process-wide state: what happened so far, and the rows of the table
    [delogged]. *)
Record World := mkWorld {
  events : list Event;
  delogged : list LogRecord
}.

(** What the environment decides for one request: the clock, whether the
    INSERT fails, whether the transport reports an error on [Write]. *)
Record Outcomes := mkOutcomes {
  now : N;
  execErr : option gostring;
  writeErr : option gostring
}.

(** The state a handler runs in, and the monad that threads it. *)
Record HState := mkHState {
  writer : http.ResponseWriter;
  world : World
}.

Definition M (A : Type) : Type := HState -> A * HState.

Definition ret {A} (a : A) : M A := fun st => (a, st).

Definition bind {A B} (m : M A) (k : A -> M B) : M B :=
  fun st => let '(a, st') := m st in k a st'.

Notation "x <- m ;; k" := (bind m (fun x => k))
  (at level 100, m at next level, right associativity).
Notation "m ;;; k" := (bind m (fun _ => k))
  (at level 100, right associativity).

Definition emit (e : Event) : M unit :=
  fun st =>
    (tt, mkHState (writer st)
                  (mkWorld (events (world st) ++ [e]) (delogged (world st)))).

Definition logPrintf (l : LogLine) : M unit := emit (EvLog l).

Definition onWriter (f : http.ResponseWriter -> http.ResponseWriter) : M unit :=
  fun st => (tt, mkHState (f (writer st)) (world st)).

(** [io.ReadAll(r.Body)]. *)
Definition ReadAll (r : http.Request) : M (result gostring) :=
  emit EvReadAll ;;; ret (http.Body r).

(** [w.Write(b)] with the error the transport reports. *)
Definition Write (o : Outcomes) (b : gostring) : M (option gostring) :=
  onWriter (http.Write b) ;;; ret (writeErr o).

(** [dbPool.Exec] with the INSERT of [recordLog]: a row is added unless the
    statement fails. *)
Definition Exec (o : Outcomes) (record : LogRecord) : M (option gostring) :=
  fun st =>
    let w := world st in
    (execErr o,
     mkHState (writer st)
              (mkWorld (events w ++ [EvExec record])
                       (match execErr o with
                        | None => delogged w ++ [record]
                        | Some _ => delogged w
                        end))).

(** ** main.go: recordLog and parseHandler *)

Definition recordLog (o : Outcomes) (record : LogRecord) : M unit :=
  err <- Exec o record ;;
  match err with
  | Some e => logPrintf (LogInsertFailed e)
  | None => ret tt
  end.

(** One turn of the loop of lines 151-160. *)
Definition parseLine (parsedData : slice LogEntry) (line : gostring)
  : slice LogEntry :=
  let line := strings.TrimSpace line in
  if isEmpty line then parsedData
  else append parsedData (classifyLine line).

(** Lines 148-160: the entries of a text ([parsedData] after the loop). *)
Definition parseLogText (logText : gostring) : slice LogEntry :=
  let lines := strings.Split logText LF in
  fold_left parseLine lines None.

(** Lines 112-116: the record at the start of a request. *)
Definition newRecord (r : http.Request) (o : Outcomes) : LogRecord :=
  {| rTimestamp := now o; RemoteAddr := http.ReqRemoteAddr r;
     RequestBody := []; ResponseBody := None;
     StatusCode := http.StatusOK; ErrorMsg := [] |}.

(** The body of [parseHandler] after the [defer]: returns [record] as it is
    when the function returns.  The call of [json.Marshal] is the parameter
    [marshal]: [Marshal] never fails, and the way out of line 164 is part of
    the model for an encoder that does. *)
Definition parseHandlerBodyWith
           (marshal : slice LogEntry -> result gostring)
           (r : http.Request) (o : Outcomes) (record : LogRecord)
  : M LogRecord :=
  logPrintf (LogReceived (http.ReqRemoteAddr r) (http.Method r) (http.URLPath r)) ;;;
  if negb (bool_decide (http.Method r = http.MethodPost)) then
    onWriter (http.Error (go "Method not allowed") http.StatusMethodNotAllowed) ;;;
    let record := set_StatusCode http.StatusMethodNotAllowed record in
    let record := set_ErrorMsg (go "Method not allowed") record in
    logPrintf (LogRejected (http.ReqRemoteAddr r) (http.Method r)) ;;;
    ret record
  else
    res <- ReadAll r ;;
    match res with
    | Err err =>
      onWriter (http.Error (go "Could not read request body")
                           http.StatusInternalServerError) ;;;
      let record := set_StatusCode http.StatusInternalServerError record in
      let record := set_ErrorMsg (go "Could not read request body") record in
      logPrintf (LogReadError (http.ReqRemoteAddr r) err) ;;;
      ret record
    | Ok body =>
      let logText := body in
      let record := set_RequestBody logText record in
      logPrintf (LogSize (length logText)) ;;;
      let parsedData := parseLogText logText in
      match marshal parsedData with
      | Err err =>
        onWriter (http.Error (go "Error creating JSON response")
                             http.StatusInternalServerError) ;;;
        let record := set_StatusCode http.StatusInternalServerError record in
        let record := set_ErrorMsg (go "Error creating JSON response") record in
        logPrintf (LogMarshalError (http.ReqRemoteAddr r) err) ;;;
        ret record
      | Ok responseBody =>
        let record := set_ResponseBody (Some responseBody) record in
        onWriter (http.Header_Set (go "Content-Type") (go "application/json")) ;;;
        onWriter (http.Header_Set (go "Access-Control-Allow-Origin") (go "*")) ;;;
        err <- Write o responseBody ;;
        match err with
        | Some e => logPrintf (LogWriteError (http.ReqRemoteAddr r) e)
        | None => ret tt
        end ;;;
        logPrintf (LogSent (http.ReqRemoteAddr r)) ;;;
        ret record
      end
    end.

(** [parseHandler] for an encoder [marshal]: the record is created, the
    deferred closure is set up (it calls [recordLog] on [record] as it is
    when the body returns), the body runs. *)
Definition parseHandlerWith (marshal : slice LogEntry -> result gostring)
           (r : http.Request) (o : Outcomes) : M unit :=
  let record := newRecord r o in
  record <- parseHandlerBodyWith marshal r o record ;;
  recordLog o record.

(** The handler of [main.go]. *)
Definition parseHandlerBody : http.Request -> Outcomes -> LogRecord -> M LogRecord :=
  parseHandlerBodyWith Marshal.

Definition parseHandler : http.Request -> Outcomes -> M unit :=
  parseHandlerWith Marshal.

(** The response a client gets from a handler that ran on a fresh writer. *)
Record Response := mkResponse {
  respStatus : nat;
  respHeader : gmap gostring (list gostring);
  respBody : gostring
}.

Definition responseOf (w : http.ResponseWriter) : Response :=
  mkResponse (http.status w) (http.sentHeader w) (http.body w).

(** One request served: the handler runs on a fresh writer in the current
    world. *)
Definition serveOneWith (marshal : slice LogEntry -> result gostring)
           (r : http.Request) (o : Outcomes) (w : World) : Response * World :=
  let '(_, st) := parseHandlerWith marshal r o (mkHState http.newWriter w) in
  (responseOf (writer st), world st).

Definition serveOne : http.Request -> Outcomes -> World -> Response * World :=
  serveOneWith Marshal.

(** The requests of a list served one after the other.  Handlers share the
    database and the log only; the model runs them in sequence, in any
    order the list gives. *)
Fixpoint serve (reqs : list (http.Request * Outcomes)) (w : World)
  : list Response * World :=
  match reqs with
  | [] => ([], w)
  | (r, o) :: reqs' =>
    let '(resp, w') := serveOne r o w in
    let '(resps, w'') := serve reqs' w' in
    (resp :: resps, w'')
  end.

(** ** The vocabulary of the claims *)

(** No newline in [s]: every character of [s] is matched by [.]. *)
Definition noNewline (s : gostring) : Prop :=
  forallb regexp.anyCharNotNL s = true.

(** [w] is matched by [\\s+]. *)
Definition whitespace (w : gostring) : Prop :=
  w <> [] /\ forallb regexp.perlSpace w = true.

(** [line] reads [[A] [B] C]: a bracketed [A], white space [w1], a bracketed
    [B], white space [w2], and [C] up to the end of the line. *)
Definition shape (line A w1 B w2 C : gostring) : Prop :=
  line = "["%char :: A ++ "]"%char :: w1 ++ "["%char :: B ++ "]"%char :: w2 ++ C
  /\ noNewline A /\ whitespace w1 /\ noNewline B /\ whitespace w2
  /\ noNewline C.

(** [line] matches the pattern. *)
Definition matchesPattern (line : gostring) : Prop :=
  exists A w1 B w2 C, shape line A w1 B w2 C.

(** The way of reading [line] the leftmost-first semantics prefers: [A] as
    short as can be, then [B] as short as can be (the two lazy groups), then
    the white space before [C] as long as can be (greedy), [C] being the
    rest of the line. *)
Definition preferred (line A B C : gostring) : Prop :=
  exists w1 w2,
    shape line A w1 B w2 C
    /\ forall A' w1' B' w2' C',
        shape line A' w1' B' w2' C' ->
        length A <= length A'
        /\ (length A' = length A ->
            length B <= length B'
            /\ (length B' = length B -> length w2' <= length w2)).

Definition structured (A B C : gostring) : LogEntry :=
  {| Timestamp := A; Level := B; Message := C; Raw := [] |}.

Definition rawEntry (line : gostring) : LogEntry :=
  {| Timestamp := []; Level := []; Message := []; Raw := line |}.

(** [s] has a rune that is not white space. *)
Definition hasNonSpace (s : gostring) : Prop :=
  existsb (fun rb => negb (unicode.IsSpace (fst rb))) (utf8.runes s) = true.

(** The lines of a text that are left after trimming: what the loop of
    [parseHandler] classifies. *)
Definition trimmedLines (text : gostring) : list gostring :=
  List.filter (fun l => negb (isEmpty l))
         (map strings.TrimSpace (strings.Split text LF)).

(** The records handed to the database in a sequence of events. *)
Definition execs (evs : list Event) : list LogRecord :=
  flat_map (fun e => match e with EvExec record => [record] | _ => [] end) evs.

(** The text of a JSON object with the given members, in order. *)
Definition memberText (kv : gostring * gostring) : gostring :=
  DQUOTE :: fst kv ++ [DQUOTE; ":"%char] ++ json.appendString (snd kv).

Definition objectText (members : list (gostring * gostring)) : gostring :=
  go "{" ++ json.join (go ",") (map memberText members) ++ go "}".

(** The text of a JSON array with the given elements. *)
Definition arrayText (elements : list gostring) : gostring :=
  go "[" ++ json.join (go ",") elements ++ go "]".

(** The members of the object of an entry: the fields that are not empty. *)
Definition members (e : LogEntry) : list (gostring * gostring) :=
  List.filter (fun kv => negb (isEmpty (snd kv)))
         [ (go "timestamp", Timestamp e); (go "level", Level e);
           (go "message", Message e); (go "raw", Raw e) ].

Definition entryText (e : LogEntry) : gostring :=
  json.encodeStruct (LogEntry_fields e).

(** The headers of the three kinds of response. *)
Definition okHeader : gmap gostring (list gostring) :=
  <[go "Access-Control-Allow-Origin" := [go "*"]]>
    (<[go "Content-Type" := [go "application/json"]]> ∅).

Definition errorHeader : gmap gostring (list gostring) :=
  <[go "X-Content-Type-Options" := [go "nosniff"]]>
    (<[go "Content-Type" := [go "text/plain; charset=utf-8"]]>
       (delete (go "Content-Length") ∅)).

(** The line [recordLog] logs when the INSERT fails. *)
Definition insertLog (o : Outcomes) : list Event :=
  match execErr o with
  | Some e => [EvLog (LogInsertFailed e)]
  | None => []
  end.

Definition writeLog (r : http.Request) (o : Outcomes) : list Event :=
  match writeErr o with
  | Some e => [EvLog (LogWriteError (http.ReqRemoteAddr r) e)]
  | None => []
  end.

(** The rows of the table after an INSERT of [record]. *)
Definition inserted (o : Outcomes) (record : LogRecord) (rows : list LogRecord)
  : list LogRecord :=
  match execErr o with
  | None => rows ++ [record]
  | Some _ => rows
  end.

(** The record of each way out of [parseHandler]. *)
Definition rejectedRecord (r : http.Request) (o : Outcomes) : LogRecord :=
  {| rTimestamp := now o; RemoteAddr := http.ReqRemoteAddr r;
     RequestBody := []; ResponseBody := None;
     StatusCode := 405; ErrorMsg := go "Method not allowed" |}.

Definition unreadRecord (r : http.Request) (o : Outcomes) : LogRecord :=
  {| rTimestamp := now o; RemoteAddr := http.ReqRemoteAddr r;
     RequestBody := []; ResponseBody := None;
     StatusCode := 500; ErrorMsg := go "Could not read request body" |}.

(** The record of a text whose entries were encoded as [responseBody], and
    of one whose entries were not encoded. *)
Definition encodedRecord (r : http.Request) (o : Outcomes)
           (text responseBody : gostring) : LogRecord :=
  {| rTimestamp := now o; RemoteAddr := http.ReqRemoteAddr r;
     RequestBody := text; ResponseBody := Some responseBody;
     StatusCode := 200; ErrorMsg := [] |}.

Definition unencodedRecord (r : http.Request) (o : Outcomes) (text : gostring)
  : LogRecord :=
  {| rTimestamp := now o; RemoteAddr := http.ReqRemoteAddr r;
     RequestBody := text; ResponseBody := None;
     StatusCode := 500; ErrorMsg := go "Error creating JSON response" |}.

Definition servedRecord (r : http.Request) (o : Outcomes) (text : gostring)
  : LogRecord :=
  encodedRecord r o text (json.encodeSlice entryText (parseLogText text)).

(** The key of a field with [omitempty]: absent when the value is empty. *)
Definition optKey (key value : gostring) : list gostring :=
  if isEmpty value then [] else [key].

(** A string between double quotes. *)
Definition quoted (s : string) : gostring := DQUOTE :: go s ++ [DQUOTE].

(** The record and the response the body of the handler leaves behind. *)
Definition bodyOutcomeWith (marshal : slice LogEntry -> result gostring)
           (r : http.Request) (o : Outcomes) (w : World)
  : LogRecord * Response :=
  let '(record, st) :=
    parseHandlerBodyWith marshal r o (newRecord r o)
                         (mkHState http.newWriter w) in
  (record, responseOf (writer st)).

Definition bodyOutcome : http.Request -> Outcomes -> World -> LogRecord * Response :=
  bodyOutcomeWith Marshal.

(** ** Definitions for the proofs *)

(** The matcher on a star of a character class, by recursion on the input. *)
Fixpoint starClass (greedy : bool) (p : ascii -> bool) (s : gostring)
         (c : regexp.caps) (k : regexp.cont) : option (gostring * regexp.caps) :=
  match s with
  | [] => k [] c
  | x :: s' =>
    if greedy then
      match (if p x then starClass greedy p s' c k else None) with
      | Some m => Some m
      | None => k s c
      end
    else
      match k s c with
      | Some m => Some m
      | None => if p x then starClass greedy p s' c k else None
      end
  end.

(** The continuation at the end of a match, and the pattern from a given
    point on. *)
Definition final : regexp.cont := fun s c => Some (s, c).

Definition dot : regexp.Regexp := regexp.CharClass regexp.anyCharNotNL.
Definition space : regexp.Regexp := regexp.CharClass regexp.perlSpace.

Definition reC : regexp.Regexp :=
  regexp.Seq [regexp.Capture 3 (regexp.Star true dot)] regexp.EndText.

Definition reT3 : regexp.Regexp :=
  regexp.Seq [regexp.Literal "]"; regexp.Plus true space;
              regexp.Capture 3 (regexp.Star true dot)] regexp.EndText.

Definition reT2 : regexp.Regexp :=
  regexp.Concat (regexp.Capture 2 (regexp.Star false dot)) reT3.

Definition reT1 : regexp.Regexp :=
  regexp.Seq [regexp.Literal "]"; regexp.Plus true space; regexp.Literal "["]
             reT2.

Definition reT0 : regexp.Regexp :=
  regexp.Concat (regexp.Capture 1 (regexp.Star false dot)) reT1.

(** A rune with its bytes is white space. *)
Definition spaceRune (rb : N * gostring) : bool := unicode.IsSpace (fst rb).

(** Whether the pattern finds a match on [line]. *)
Definition matchesb (line : gostring) : bool :=
  match regexp.FindStringSubmatch logRegex line with
  | [] => false
  | _ :: _ => true
  end.

(** ** Tactics *)

(** Splits a conjunction into its parts. *)
Ltac splits := repeat match goal with |- _ /\ _ => split end.

(** Unfolds the handler down to the state it threads. *)
Ltac run_handler :=
  unfold serveOne, serveOneWith, parseHandler, parseHandlerWith,
    parseHandlerBody, parseHandlerBodyWith, recordLog, ReadAll, Write,
    Exec, logPrintf, emit, onWriter, bind, ret;
  cbn [writer world events delogged fst snd].


(** ** Further vocabulary: the handler over a run *)

(** The record a request leaves for the database; it does not depend on the
    world the handler runs in. *)
Definition auditRecord (r : http.Request) (o : Outcomes) : LogRecord :=
  fst (bodyOutcome r o (mkWorld [] [])).

(** The requests whose INSERT does not fail. *)
Definition persisted (ro : http.Request * Outcomes) : bool :=
  match execErr (snd ro) with
  | None => true
  | Some _ => false
  end.

Definition recordOf (ro : http.Request * Outcomes) : LogRecord :=
  auditRecord (fst ro) (snd ro).

(** The outcomes of a request with another result of [Write]. *)
Definition withWriteErr (e : option gostring) (o : Outcomes) : Outcomes :=
  mkOutcomes (now o) (execErr o) e.

(** The runes of [s] between its leading and its trailing white space. *)
Definition trimmedRunes (s : gostring) : list (N * gostring) :=
  strings.dropWhileEnd spaceRune (strings.dropWhile spaceRune (utf8.runes s)).

(** [s] decodes to white space only. *)
Definition allSpace (s : gostring) : Prop :=
  forallb spaceRune (utf8.runes s) = true.

(** The line an entry stands for: the raw line, or the three groups in
    their brackets with one space after each closing bracket. *)
Definition canonical (e : LogEntry) : gostring :=
  if isEmpty (Raw e) then
    go "[" ++ Timestamp e ++ go "] [" ++ Level e ++ go "] " ++ Message e
  else Raw e.

(** [c] is not at either end of [s]. *)
Definition notAtEnds (p : ascii -> bool) (s : gostring) : Prop :=
  (forall c, head s = Some c -> p c = false)
  /\ (forall c, last s = Some c -> p c = false).

(** What holds of every entry the loop appends. *)
Definition rawShaped (e : LogEntry) : Prop :=
  e = rawEntry (Raw e) /\ Raw e <> [] /\ ~ matchesPattern (Raw e)
  /\ strings.TrimSpace (Raw e) = Raw e /\ noNewline (Raw e).

Definition structuredShaped (e : LogEntry) : Prop :=
  Raw e = [] /\ Message e <> []
  /\ noNewline (Timestamp e) /\ noNewline (Level e) /\ noNewline (Message e)
  /\ notAtEnds regexp.perlSpace (Message e).

(** Splits a statement on the absence of newlines into its parts. *)
Ltac newlines :=
  unfold noNewline in *;
  repeat (rewrite ?forallb_app in *; cbn [forallb] in *;
          rewrite ?andb_true_iff in * );
  repeat match goal with
         | H : _ /\ _ |- _ => destruct H
         end;
  splits; try assumption; try reflexivity.

(** A line as the loop classifies it. *)
Definition loopLine (l : gostring) : Prop :=
  l <> [] /\ noNewline l /\ exists s, l = strings.TrimSpace s.

(** A byte that stands for itself in a JSON text and in an HTML page: no
    control character and none of the characters the encoder escapes for
    HTML. *)
Definition plainByte (c : ascii) : bool :=
  (32 <=? code c)%N
  && negb (beq c "<") && negb (beq c ">") && negb (beq c "&").

(** [utf8.ValidString]: no byte of [s] decodes to the error of width 1. *)
Definition validRune (rb : N * gostring) : bool :=
  negb ((fst rb =? utf8.RuneError)%N && (length (snd rb) =? 1)).

Definition ValidString (s : gostring) : bool :=
  forallb validRune (utf8.runes s).

Definition asciiByte (c : ascii) : bool := (code c <? 128)%N.

(** The request body the record holds on each way out: the text read, or
    nothing when the method is refused or the body cannot be read. *)
Definition recordedBody (r : http.Request) : gostring :=
  if bool_decide (http.Method r = http.MethodPost) then
    match http.Body r with Ok text => text | Err _ => [] end
  else [].

(** * The start of the server *)

From Stdlib Require DecimalString.

(** ** os *)

Module os.

(** [os.Getenv]: the value of the variable, empty when it is not set. *)
Definition Getenv (env : gmap gostring gostring) (key : gostring) : gostring :=
  default [] (env !! key).

End os.

(** [%d] of [fmt.Sprintf] for a number that is not negative. *)
Definition decimal (n : N) : gostring :=
  go (DecimalString.NilZero.string_of_uint (N.to_uint n)).

(** Lines 42-49: the connection string; [%s] writes a string as it is. *)
Definition connStr (env : gmap gostring gostring) : gostring :=
  go "postgres://" ++ os.Getenv env (go "POSTGRES_USER")
    ++ go ":" ++ os.Getenv env (go "POSTGRES_PASSWORD")
    ++ go "@" ++ go "db"
    ++ go ":" ++ decimal 5432
    ++ go "/" ++ os.Getenv env (go "POSTGRES_DB_NAME")
    ++ go "?sslmode=disable".

(** The lines [setupDatabase] and [main] write to the log. *)
Inductive BootLine :=
| LogConnectFailed (err : gostring)    (* line 57, log.Fatalf *)
| LogPingFailed (err : gostring)       (* line 63, log.Fatalf *)
| LogConnected                         (* line 66 *)
| LogCreateFailed (err : gostring)     (* line 82, log.Fatalf *)
| LogTableReady                        (* line 84 *)
| LogStarting                          (* line 189 *)
| LogAvailable                         (* line 190 *)
| LogServerStopped (err : gostring).   (* line 193, log.Fatal *)

(** What the start of the server does, in order. *)
Inductive BootEvent :=
| BootLog (line : BootLine)
| BootNew (conn : gostring)            (* pgxpool.New *)
| BootPing                             (* dbPool.Ping *)
| BootCreateTable                      (* dbPool.Exec of CREATE TABLE *)
| BootHandleFunc (pattern : gostring)  (* http.HandleFunc *)
| BootListen (addr : gostring).        (* http.ListenAndServe *)

(** The errors the environment returns at the start: of [pgxpool.New], of
    [Ping], of the [Exec] of CREATE TABLE, of [ListenAndServe] before it
    serves a request (when it cannot listen), and the error with which
    [ListenAndServe] returns in the end, which is never nil. *)
Record BootOutcomes := mkBootOutcomes {
  newErr : option gostring;
  pingErr : option gostring;
  createErr : option gostring;
  listenErr : option gostring;
  stopErr : gostring
}.

(** The table [delogged]: absent, or its rows in the order of insertion. *)
Definition Database : Type := option (list LogRecord).

(** CREATE TABLE IF NOT EXISTS: a table that exists is left as it is. *)
Definition createTable (db : Database) : Database := Some (default [] db).

(** Lines 38-85.  The result is the events, the database, and whether the
    function returns: [log.Fatalf] ends the process. *)
Definition setupDatabase (env : gmap gostring gostring) (o : BootOutcomes)
           (db : Database) : list BootEvent * Database * bool :=
  let connStr := connStr env in
  match newErr o with
  | Some err => ([BootNew connStr; BootLog (LogConnectFailed err)], db, false)
  | None =>
    match pingErr o with
    | Some err =>
      ([BootNew connStr; BootPing; BootLog (LogPingFailed err)], db, false)
    | None =>
      match createErr o with
      | Some err =>
        ([BootNew connStr; BootPing; BootLog LogConnected;
          BootCreateTable; BootLog (LogCreateFailed err)], db, false)
      | None =>
        ([BootNew connStr; BootPing; BootLog LogConnected;
          BootCreateTable; BootLog LogTableReady], createTable db, true)
      end
    end
  end.

(** A run of the program: what it did at the start, the responses of the
    handler, what the handler did, the database it leaves, and the status
    with which the process ends. *)
Record Run := mkRun {
  boot : list BootEvent;
  responses : list Response;
  handled : list Event;
  database : Database;
  exitStatus : nat
}.

(** Lines 186-194.  [reqs] are the requests the server hands to
    [parseHandler], with the outcomes of the environment for each;
    [log.Fatal] ends the process with the status 1. *)
Definition main (env : gmap gostring gostring) (o : BootOutcomes)
           (db : Database) (reqs : list (http.Request * Outcomes)) : Run :=
  let '(evs, db, returned) := setupDatabase env o db in
  if negb returned then mkRun evs [] [] db 1
  else
    let evs := evs ++ [BootLog LogStarting; BootLog LogAvailable;
                       BootHandleFunc (go "/api/parse");
                       BootListen (go ":8001")] in
    match listenErr o with
    | Some err => mkRun (evs ++ [BootLog (LogServerStopped err)]) [] [] db 1
    | None =>
      let '(resps, w) := serve reqs (mkWorld [] (default [] db)) in
      mkRun (evs ++ [BootLog (LogServerStopped (stopErr o))])
            resps (events w) (Some (delogged w)) 1
    end.

(** The start went through: the database was reached, the table is there
    and the port is open. *)
Definition started (o : BootOutcomes) : bool :=
  match newErr o, pingErr o, createErr o, listenErr o with
  | None, None, None, None => true
  | _, _, _, _ => false
  end.

(** The calls of the database among the events of the start. *)
Definition dbCalls (evs : list BootEvent) : list BootEvent :=
  List.filter (fun e => match e with
                        | BootNew _ | BootPing | BootCreateTable => true
                        | _ => false
                        end) evs.

Definition setVar (key value : gostring) (env : gmap gostring gostring)
  : gmap gostring gostring := <[key := value]> env.

(** * Proofs *)

(** ** The matcher on the pattern of [main.go] *)

Section Matcher.

Import regexp.

Variable text : gostring.

Lemma starLoop_class g p k c : forall fuel s,
  length s < fuel ->
  starLoop (run text (CharClass p)) g k fuel s c = starClass g p s c k.
Proof.
  induction fuel as [|fuel IH]; intros s Hlen; [lia|].
  destruct s as [|x s']; simpl.
  - destruct g; [reflexivity | destruct (k [] c); reflexivity].
  - simpl in Hlen.
    assert (Hlt : (length s' <? S (length s')) = true)
      by (apply Nat.ltb_lt; lia).
    rewrite Hlt. rewrite IH by lia. reflexivity.
Qed.

Lemma run_star_class g p s c k :
  run text (Star g (CharClass p)) s c k = starClass g p s c k.
Proof.
  change (starLoop (run text (CharClass p)) g k (S (length s)) s c
          = starClass g p s c k).
  apply starLoop_class. lia.
Qed.

End Matcher.

Lemma starClass_None g p s c k :
  starClass g p s c k = None ->
  forall u v, s = u ++ v -> forallb p u = true -> k v c = None.
Proof.
  induction s as [|x s' IH]; simpl; intros Hn u v Heq Hp.
  - destruct u; [|discriminate]. simpl in Heq. subst v. exact Hn.
  - assert (Hk : k (x :: s') c = None /\
                 (if p x then starClass g p s' c k else None) = None).
    { destruct g.
      - destruct (if p x then starClass true p s' c k else None); [discriminate|].
        auto.
      - destruct (k (x :: s') c); [discriminate|]. auto. }
    destruct Hk as [Hk Hrec].
    destruct u as [|y u'].
    + simpl in Heq. subst v. exact Hk.
    + simpl in Heq. injection Heq as -> ->.
      simpl in Hp. apply andb_prop in Hp as [Hy Hu].
      rewrite Hy in Hrec. eapply IH; eauto.
Qed.

Lemma starClass_lazy_Some p s c k r :
  starClass false p s c k = Some r ->
  exists u v,
    s = u ++ v /\ forallb p u = true /\ k v c = Some r
    /\ forall u' v', s = u' ++ v' -> length u' < length u -> k v' c = None.
Proof.
  revert r. induction s as [|x s' IH]; simpl; intros r Hs.
  - exists [], []. repeat split; auto. simpl. intros; lia.
  - destruct (k (x :: s') c) eqn:Hk.
    + injection Hs as <-. exists [], (x :: s').
      repeat split; auto. simpl; intros; lia.
    + destruct (p x) eqn:Hx; [|discriminate].
      destruct (IH _ Hs) as (u & v & -> & Hu & Hv & Hmin).
      exists (x :: u), v. simpl. rewrite Hx, Hu. repeat split; auto.
      intros u' v' Heq Hlen. destruct u' as [|y u''].
      * simpl in Heq. subst v'. exact Hk.
      * simpl in Heq. injection Heq as -> Heq.
        apply (Hmin u''); auto. simpl in Hlen. lia.
Qed.

Lemma starClass_greedy_Some p s c k r :
  starClass true p s c k = Some r ->
  exists u v,
    s = u ++ v /\ forallb p u = true /\ k v c = Some r
    /\ forall u' v', s = u' ++ v' -> forallb p u' = true ->
                     length u < length u' -> k v' c = None.
Proof.
  revert r. induction s as [|x s' IH]; simpl; intros r Hs.
  - exists [], []. repeat split; auto.
    intros u' v' Heq _ Hlen. destruct u'; simpl in *; [lia | discriminate].
  - destruct (p x) eqn:Hx.
    + destruct (starClass true p s' c k) eqn:Hrec.
      * injection Hs as <-.
        destruct (IH _ eq_refl) as (u & v & -> & Hu & Hv & Hmax).
        exists (x :: u), v. simpl. rewrite Hx, Hu. repeat split; auto.
        intros u' v' Heq Hp Hlen. destruct u' as [|y u'']; simpl in *; [lia|].
        injection Heq as -> Heq. apply andb_prop in Hp as [_ Hp].
        apply (Hmax u''); auto. lia.
      * exists [], (x :: s'). repeat split; auto.
        intros u' v' Heq Hp Hlen. destruct u' as [|y u'']; simpl in *; [lia|].
        injection Heq as -> Heq. apply andb_prop in Hp as [_ Hp].
        eapply starClass_None; eauto.
    + exists [], (x :: s'). repeat split; auto.
      intros u' v' Heq Hp Hlen. destruct u' as [|y u'']; simpl in *; [lia|].
      injection Heq as -> Heq. rewrite Hx in Hp. discriminate.
Qed.

Lemma take_app_suffix {A} (u v : list A) :
  take (length (u ++ v) - length v) (u ++ v) = u.
Proof.
  rewrite length_app.
  replace (length u + length v - length v) with (length u) by lia.
  apply take_app_length.
Qed.

Lemma forallb_suffix {A} (p : A -> bool) (u v : list A) :
  forallb p (u ++ v) = true -> forallb p v = true.
Proof. rewrite forallb_app. intros H. apply andb_prop in H. tauto. Qed.

(** Two ways of cutting one list: the shorter first part is a prefix of the
    longer one. *)
Lemma app_cut {A} (u v u' v' : list A) :
  u ++ v = u' ++ v' -> length u <= length u' ->
  exists d, u' = u ++ d /\ v = d ++ v'.
Proof.
  revert u'. induction u as [|x u IH]; intros u' Heq Hlen; simpl in *.
  - exists u'. auto.
  - destruct u' as [|y u']; simpl in *; [lia|].
    injection Heq as -> Heq.
    destruct (IH u' Heq) as (d & -> & ->); [lia|].
    exists d. auto.
Qed.

Lemma app_cut_eq {A} (u v u' v' : list A) :
  u ++ v = u' ++ v' -> length u = length u' -> u = u' /\ v = v'.
Proof.
  intros Heq Hlen.
  destruct (app_cut u v u' v' Heq) as (d & -> & ->); [lia|].
  rewrite length_app in Hlen. destruct d; simpl in *; [|lia].
  rewrite app_nil_r. auto.
Qed.

Lemma perlSpace_bracket : regexp.perlSpace "[" = false.
Proof. reflexivity. Qed.

(** White space followed by an opening bracket: the white space is
    determined. *)
Lemma space_run_unique (w w' x x' : gostring) :
  forallb regexp.perlSpace w = true -> forallb regexp.perlSpace w' = true ->
  w ++ "["%char :: x = w' ++ "["%char :: x' -> w = w' /\ x = x'.
Proof.
  revert w'. induction w as [|a w IH]; intros w' Hw Hw' Heq.
  - destruct w' as [|b w']; simpl in *.
    + injection Heq as ->. auto.
    + injection Heq as <- _. rewrite perlSpace_bracket in Hw'. discriminate.
  - destruct w' as [|b w']; simpl in *.
    + injection Heq as -> _. rewrite perlSpace_bracket in Hw. discriminate.
    + injection Heq as -> Heq.
      apply andb_prop in Hw as [_ Hw]. apply andb_prop in Hw' as [_ Hw'].
      destruct (IH w' Hw Hw' Heq) as [-> ->]. auto.
Qed.

Section Levels.

Import regexp.

Variable text : gostring.

Lemma run_lazy_None n p s c k :
  run text (Capture n (Star false (CharClass p))) s c k = None ->
  forall u v, s = u ++ v -> forallb p u = true -> k v (<[n:=u]> c) = None.
Proof.
  change (run text (Capture n (Star false (CharClass p))) s c k)
    with (run text (Star false (CharClass p)) s c
              (fun s' c' => k s' (<[n := take (length s - length s') s]> c'))).
  rewrite run_star_class. intros Hn u v -> Hp.
  pose proof (starClass_None _ _ _ _ _ Hn u v eq_refl Hp) as H.
  simpl in H. rewrite take_app_suffix in H. exact H.
Qed.

Lemma run_lazy_Some n p s c k r :
  run text (Capture n (Star false (CharClass p))) s c k = Some r ->
  exists u v,
    s = u ++ v /\ forallb p u = true /\ k v (<[n:=u]> c) = Some r
    /\ forall u' v', s = u' ++ v' -> length u' < length u ->
                     k v' (<[n:=u']> c) = None.
Proof.
  change (run text (Capture n (Star false (CharClass p))) s c k)
    with (run text (Star false (CharClass p)) s c
              (fun s' c' => k s' (<[n := take (length s - length s') s]> c'))).
  rewrite run_star_class. intros Hs.
  apply starClass_lazy_Some in Hs as (u & v & -> & Hp & Hk & Hmin).
  rewrite take_app_suffix in Hk.
  exists u, v. repeat split; auto.
  intros u' v' Heq Hlen. specialize (Hmin u' v' Heq Hlen).
  rewrite Heq, take_app_suffix in Hmin. exact Hmin.
Qed.

Lemma run_plus_None p s c k :
  run text (Plus true (CharClass p)) s c k = None ->
  forall w v, s = w ++ v -> w <> [] -> forallb p w = true -> k v c = None.
Proof.
  unfold Plus.
  change (run text (Concat (CharClass p) (Star true (CharClass p))) s c k)
    with (run text (CharClass p) s c
              (fun s' c' => run text (Star true (CharClass p)) s' c' k)).
  intros Hn w v -> Hne Hp. destruct w as [|x w]; [congruence|].
  simpl in Hp. apply andb_prop in Hp as [Hx Hw].
  simpl app in Hn. cbn [run] in Hn. rewrite Hx in Hn.
  change (run text (Star true (CharClass p)) (w ++ v) c k = None) in Hn.
  rewrite run_star_class in Hn.
  eapply starClass_None; eauto.
Qed.

Lemma run_plus_Some p s c k r :
  run text (Plus true (CharClass p)) s c k = Some r ->
  exists w v,
    s = w ++ v /\ w <> [] /\ forallb p w = true /\ k v c = Some r
    /\ forall w' v', s = w' ++ v' -> forallb p w' = true ->
                     length w < length w' -> k v' c = None.
Proof.
  unfold Plus.
  change (run text (Concat (CharClass p) (Star true (CharClass p))) s c k)
    with (run text (CharClass p) s c
              (fun s' c' => run text (Star true (CharClass p)) s' c' k)).
  intros Hs. destruct s as [|x s]; [discriminate|].
  cbn [run] in Hs. destruct (p x) eqn:Hx; [|discriminate].
  change (run text (Star true (CharClass p)) s c k = Some r) in Hs.
  rewrite run_star_class in Hs.
  apply starClass_greedy_Some in Hs as (u & v & -> & Hp & Hk & Hmax).
  exists (x :: u), v. simpl. rewrite Hx, Hp. repeat split; auto.
  intros w' v' Heq Hw' Hlen. destruct w' as [|y w']; simpl in *; [lia|].
  injection Heq as -> Heq. apply andb_prop in Hw' as [_ Hw'].
  apply (Hmax w'); auto. lia.
Qed.

Lemma run_C s c :
  run text reC s c final
  = if forallb anyCharNotNL s then Some ([], <[3:=s]> c) else None.
Proof.
  unfold reC, Seq.
  change (run text (Concat (Capture 3 (Star true dot)) EndText) s c final)
    with (run text (Star true (CharClass anyCharNotNL)) s c
              (fun s' c' =>
                 run text EndText s'
                     (<[3 := take (length s - length s') s]> c') final)).
  rewrite run_star_class.
  assert (G : forall pre s,
    starClass true anyCharNotNL s c
      (fun s' c' =>
         run text EndText s'
             (<[3 := take (length (pre ++ s) - length s') (pre ++ s)]> c')
             final)
    = if forallb anyCharNotNL s then Some ([], <[3 := pre ++ s]> c)
      else None).
  { clear s. intros pre s. revert pre.
    induction s as [|x s IH]; intros pre; simpl.
    - rewrite Nat.sub_0_r, firstn_all. reflexivity.
    - specialize (IH (pre ++ [x])). rewrite <- app_assoc in IH.
      simpl in IH. destruct (anyCharNotNL x); simpl.
      + rewrite IH. destruct (forallb anyCharNotNL s); reflexivity.
      + reflexivity. }
  apply (G [] s).
Qed.

End Levels.

Section Tails.

Import regexp.

Variable text : gostring.

(** *** After the second group: a closing bracket, white space, the rest *)

Lemma reT3_unfold s c :
  run text reT3 s c final
  = run text (Literal "]") s c
        (fun s1 c1 => run text (Plus true space) s1 c1
                          (fun s2 c2 => run text reC s2 c2 final)).
Proof. reflexivity. Qed.

Lemma T3_None s c :
  run text reT3 s c final = None ->
  forall w2 C,
    s = "]"%char :: w2 ++ C -> whitespace w2 -> noNewline C -> False.
Proof.
  rewrite reT3_unfold. intros Hn w2 C -> [Hne Hw] HC.
  cbn [run] in Hn. change (beq "]" "]") with true in Hn. cbv iota in Hn.
  pose proof (run_plus_None text _ _ _ _ Hn w2 C eq_refl Hne Hw) as H.
  cbv beta in H. rewrite run_C in H. unfold noNewline in HC.
  rewrite HC in H. discriminate.
Qed.

Lemma T3_Some s c r :
  run text reT3 s c final = Some r ->
  exists w2 C,
    s = "]"%char :: w2 ++ C /\ whitespace w2 /\ noNewline C
    /\ r = ([], <[3:=C]> c)
    /\ forall w2' C',
        s = "]"%char :: w2' ++ C' -> forallb perlSpace w2' = true ->
        length w2' <= length w2.
Proof.
  rewrite reT3_unfold. intros Hs.
  destruct s as [|x s]; [discriminate|].
  cbn [run] in Hs. destruct (beq x "]") eqn:Hx; [|discriminate].
  apply Ascii.eqb_eq in Hx. subst x.
  apply run_plus_Some in Hs as (w2 & C & -> & Hne & Hw & Hk & Hmax).
  rewrite run_C in Hk.
  destruct (forallb anyCharNotNL C) eqn:HC; [|discriminate].
  injection Hk as <-.
  exists w2, C. splits; auto; try (split; assumption).
  intros w2' C' Heq Hw'. injection Heq as Heq.
  destruct (le_lt_dec (length w2') (length w2)) as [Hle|Hlt]; [exact Hle|].
  exfalso. specialize (Hmax w2' C' Heq Hw' Hlt).
  rewrite run_C in Hmax.
  destruct (app_cut w2 C w2' C' Heq) as (d & _ & ->); [lia|].
  apply forallb_suffix in HC. rewrite HC in Hmax. discriminate.
Qed.

(** *** The second group and what follows *)

Lemma T2_None s c :
  run text reT2 s c final = None ->
  forall B w2 C,
    s = B ++ "]"%char :: w2 ++ C ->
    noNewline B -> whitespace w2 -> noNewline C -> False.
Proof.
  intros Hn B w2 C Heq HB Hw HC.
  change (run text (Capture 2 (Star false (CharClass anyCharNotNL))) s c
              (fun s' c' => run text reT3 s' c' final) = None) in Hn.
  pose proof (run_lazy_None text _ _ _ _ _ Hn B _ Heq HB) as H.
  cbv beta in H. eapply T3_None; eauto.
Qed.

Lemma T2_Some s c r :
  run text reT2 s c final = Some r ->
  exists B w2 C,
    s = B ++ "]"%char :: w2 ++ C
    /\ noNewline B /\ whitespace w2 /\ noNewline C
    /\ r = ([], <[3:=C]> (<[2:=B]> c))
    /\ forall B' w2' C',
        s = B' ++ "]"%char :: w2' ++ C' ->
        noNewline B' -> whitespace w2' -> noNewline C' ->
        length B <= length B'
        /\ (length B' = length B -> length w2' <= length w2).
Proof.
  intros Hs.
  change (run text (Capture 2 (Star false (CharClass anyCharNotNL))) s c
              (fun s' c' => run text reT3 s' c' final) = Some r) in Hs.
  apply run_lazy_Some in Hs as (B & v & -> & HB & Hk & Hmin).
  cbv beta in Hk. apply T3_Some in Hk as (w2 & C & -> & Hw & HC & -> & Hmax).
  exists B, w2, C. splits; auto; try (split; assumption).
  intros B' w2' C' Heq HB' Hw' HC'. split.
  - destruct (le_lt_dec (length B) (length B')) as [Hle|Hlt]; [exact Hle|].
    exfalso. specialize (Hmin B' _ Heq Hlt). cbv beta in Hmin.
    eapply T3_None; eauto.
  - intros Hlen. symmetry in Heq.
    apply app_cut_eq in Heq as [-> Heq]; [|exact Hlen].
    apply (Hmax w2' C'); [congruence | apply Hw'].
Qed.

(** *** After the first group: a closing bracket, white space, an opening
    bracket, the second group *)

Lemma reT1_unfold s c :
  run text reT1 s c final
  = run text (Literal "]") s c
        (fun s1 c1 => run text (Plus true space) s1 c1
                          (fun s2 c2 => run text (Literal "[") s2 c2
                                            (fun s3 c3 => run text reT2 s3 c3 final))).
Proof. reflexivity. Qed.

Lemma T1_None s c :
  run text reT1 s c final = None ->
  forall w1 B w2 C,
    s = "]"%char :: w1 ++ "["%char :: B ++ "]"%char :: w2 ++ C ->
    whitespace w1 -> noNewline B -> whitespace w2 -> noNewline C -> False.
Proof.
  rewrite reT1_unfold. intros Hn w1 B w2 C -> [Hne Hw1] HB Hw HC.
  cbn [run] in Hn. change (beq "]" "]") with true in Hn. cbv iota in Hn.
  pose proof (run_plus_None text _ _ _ _ Hn w1 _ eq_refl Hne Hw1) as H.
  cbn [run] in H. change (beq "[" "[") with true in H. cbv iota in H.
  eapply T2_None; eauto.
Qed.

Lemma T1_Some s c r :
  run text reT1 s c final = Some r ->
  exists w1 B w2 C,
    s = "]"%char :: w1 ++ "["%char :: B ++ "]"%char :: w2 ++ C
    /\ whitespace w1 /\ noNewline B /\ whitespace w2 /\ noNewline C
    /\ r = ([], <[3:=C]> (<[2:=B]> c))
    /\ forall w1' B' w2' C',
        s = "]"%char :: w1' ++ "["%char :: B' ++ "]"%char :: w2' ++ C' ->
        whitespace w1' -> noNewline B' -> whitespace w2' -> noNewline C' ->
        length B <= length B'
        /\ (length B' = length B -> length w2' <= length w2).
Proof.
  rewrite reT1_unfold. intros Hs.
  destruct s as [|x s]; [discriminate|].
  cbn [run] in Hs. destruct (beq x "]") eqn:Hx; [|discriminate].
  apply Ascii.eqb_eq in Hx. subst x.
  apply run_plus_Some in Hs as (w1 & v & -> & Hne & Hw1 & Hk & _).
  destruct v as [|y v]; [discriminate|].
  cbn [run] in Hk. destruct (beq y "[") eqn:Hy; [|discriminate].
  apply Ascii.eqb_eq in Hy. subst y.
  apply T2_Some in Hk as (B & w2 & C & -> & HB & Hw & HC & -> & Hmin).
  exists w1, B, w2, C. splits; auto; try (split; assumption).
  intros w1' B' w2' C' Heq [_ Hw1'] HB' Hw' HC'.
  injection Heq as Heq.
  apply space_run_unique in Heq as [<- Heq]; auto.
  apply (Hmin B' w2' C'); auto.
Qed.

(** *** The first group and what follows *)

Lemma T0_None s c :
  run text reT0 s c final = None ->
  forall A w1 B w2 C,
    s = A ++ "]"%char :: w1 ++ "["%char :: B ++ "]"%char :: w2 ++ C ->
    noNewline A -> whitespace w1 -> noNewline B -> whitespace w2 ->
    noNewline C -> False.
Proof.
  intros Hn A w1 B w2 C Heq HA Hw1 HB Hw HC.
  change (run text (Capture 1 (Star false (CharClass anyCharNotNL))) s c
              (fun s' c' => run text reT1 s' c' final) = None) in Hn.
  pose proof (run_lazy_None text _ _ _ _ _ Hn A _ Heq HA) as H.
  cbv beta in H. eapply T1_None; eauto.
Qed.

Lemma T0_Some s c r :
  run text reT0 s c final = Some r ->
  exists A w1 B w2 C,
    s = A ++ "]"%char :: w1 ++ "["%char :: B ++ "]"%char :: w2 ++ C
    /\ noNewline A /\ whitespace w1 /\ noNewline B /\ whitespace w2
    /\ noNewline C
    /\ r = ([], <[3:=C]> (<[2:=B]> (<[1:=A]> c)))
    /\ forall A' w1' B' w2' C',
        s = A' ++ "]"%char :: w1' ++ "["%char :: B' ++ "]"%char :: w2' ++ C' ->
        noNewline A' -> whitespace w1' -> noNewline B' -> whitespace w2' ->
        noNewline C' ->
        length A <= length A'
        /\ (length A' = length A ->
            length B <= length B'
            /\ (length B' = length B -> length w2' <= length w2)).
Proof.
  intros Hs.
  change (run text (Capture 1 (Star false (CharClass anyCharNotNL))) s c
              (fun s' c' => run text reT1 s' c' final) = Some r) in Hs.
  apply run_lazy_Some in Hs as (A & v & -> & HA & Hk & Hmin).
  cbv beta in Hk.
  apply T1_Some in Hk as (w1 & B & w2 & C & -> & Hw1 & HB & Hw & HC & -> & Hmin').
  exists A, w1, B, w2, C. splits; auto; try (split; assumption).
  intros A' w1' B' w2' C' Heq HA' Hw1' HB' Hw' HC'. split.
  - destruct (le_lt_dec (length A) (length A')) as [Hle|Hlt]; [exact Hle|].
    exfalso. specialize (Hmin A' _ Heq Hlt). cbv beta in Hmin.
    eapply T1_None; eauto.
  - intros Hlen. symmetry in Heq.
    apply app_cut_eq in Heq as [-> Heq]; [|exact Hlen].
    symmetry in Heq. apply (Hmin' w1' B' w2' C' Heq); auto.
Qed.

End Tails.

(** ** The pattern on a whole line *)

Lemma logRegex_unfold (line : gostring) (c : regexp.caps) :
  regexp.run line logRegex line c final
  = match line with
    | x :: s => if beq x "[" then regexp.run line reT0 s c final else None
    | [] => None
    end.
Proof.
  change (regexp.run line logRegex line c final)
    with (if length line =? length line
          then regexp.run line (regexp.Literal "[") line c
                          (fun s' c' => regexp.run line reT0 s' c' final)
          else None).
  rewrite Nat.eqb_refl. reflexivity.
Qed.

Lemma logRegex_shorter (text s : gostring) (c : regexp.caps) k :
  length s <> length text -> regexp.run text logRegex s c k = None.
Proof.
  intros Hne.
  change (regexp.run text logRegex s c k)
    with (if length s =? length text
          then regexp.run text (regexp.Literal "[") s c
                          (fun s' c' => regexp.run text reT0 s' c' k)
          else None).
  apply Nat.eqb_neq in Hne. rewrite Hne. reflexivity.
Qed.

Lemma search_shorter (text : gostring) : forall s,
  length s < length text -> regexp.search logRegex text s = None.
Proof.
  induction s as [|x s IH]; intros Hlen; cbn [regexp.search].
  - rewrite logRegex_shorter by lia. reflexivity.
  - rewrite logRegex_shorter by lia. apply IH. simpl in Hlen. lia.
Qed.

Lemma search_logRegex (line : gostring) :
  regexp.search logRegex line line
  = match regexp.run line logRegex line ∅ final with
    | Some (s', c) => Some (line, s', c)
    | None => None
    end.
Proof.
  destruct line as [|x s].
  - cbn [regexp.search]. unfold final.
    destruct (regexp.run [] logRegex [] ∅ (λ s' c, Some (s', c)))
      as [[? ?]|]; reflexivity.
  - cbn [regexp.search]. unfold final.
    destruct (regexp.run (x :: s) logRegex (x :: s) ∅ (λ s' c, Some (s', c)))
      as [[? ?]|]; [reflexivity|].
    apply search_shorter. simpl. lia.
Qed.

(** The pattern either fails on a line, and no reading of the line has the
    shape, or it succeeds with the groups of the preferred reading. *)
Lemma logRegex_run (line : gostring) :
  (regexp.run line logRegex line ∅ final = None /\ ~ matchesPattern line)
  \/ exists A B C,
      preferred line A B C
      /\ regexp.run line logRegex line ∅ final
         = Some ([], <[3:=C]> (<[2:=B]> (<[1:=A]> ∅))).
Proof.
  rewrite logRegex_unfold.
  destruct line as [|x s].
  { left. split; [reflexivity|].
    intros (A & w1 & B & w2 & C & Heq & _). discriminate. }
  destruct (beq x "[") eqn:Hx.
  2:{ left. split; [reflexivity|].
      intros (A & w1 & B & w2 & C & Heq & _). injection Heq as -> _.
      discriminate. }
  apply Ascii.eqb_eq in Hx. subst x.
  destruct (regexp.run ("["%char :: s) reT0 s ∅ final) as [r|] eqn:Hrun.
  - right.
    apply T0_Some in Hrun
      as (A & w1 & B & w2 & C & -> & HA & Hw1 & HB & Hw & HC & -> & Hmin).
    exists A, B, C. split; [|reflexivity].
    exists w1, w2. split; [unfold shape; splits; auto|].
    intros A' w1' B' w2' C' (Heq & HA' & Hw1' & HB' & Hw' & HC').
    injection Heq as Heq. apply (Hmin A' w1' B' w2' C'); auto.
  - left. split; [reflexivity|].
    intros (A & w1 & B & w2 & C & Heq & HA & Hw1 & HB & Hw & HC).
    injection Heq as Heq. eapply T0_None; eauto.
Qed.

Lemma preferred_unique (line A B C A' B' C' : gostring) :
  preferred line A B C -> preferred line A' B' C' ->
  A = A' /\ B = B' /\ C = C'.
Proof.
  intros (w1 & w2 & Hs & Hmin) (w1' & w2' & Hs' & Hmin').
  destruct (Hmin _ _ _ _ _ Hs') as [HA HAB].
  destruct (Hmin' _ _ _ _ _ Hs) as [HA' HAB'].
  assert (HlA : length A' = length A) by lia.
  destruct (HAB HlA) as [HB HBw]. destruct (HAB' (eq_sym HlA)) as [HB' HBw'].
  assert (HlB : length B' = length B) by lia.
  specialize (HBw HlB). specialize (HBw' (eq_sym HlB)).
  destruct Hs as (Heq & _ & [_ Hw1] & _). destruct Hs' as (Heq' & _ & [_ Hw1'] & _).
  rewrite Heq in Heq'. injection Heq' as Heq'.
  apply app_cut_eq in Heq' as [-> Heq']; [|lia].
  injection Heq' as Heq'.
  apply space_run_unique in Heq' as [-> Heq']; auto.
  apply app_cut_eq in Heq' as [-> Heq']; [|lia].
  injection Heq' as Heq'.
  apply app_cut_eq in Heq' as [-> ->]; [|lia].
  auto.
Qed.

Lemma find_match (line : gostring) :
  matchesPattern line ->
  exists A B C,
    preferred line A B C
    /\ regexp.FindStringSubmatch logRegex line = [line; A; B; C].
Proof.
  intros Hm. destruct (logRegex_run line) as [[_ Hn]|(A & B & C & Hp & Hrun)];
    [contradiction|].
  exists A, B, C. split; [exact Hp|].
  unfold regexp.FindStringSubmatch. rewrite search_logRegex, Hrun.
  cbn [length]. rewrite Nat.sub_0_r, firstn_all. reflexivity.
Qed.

Lemma find_nomatch (line : gostring) :
  ~ matchesPattern line -> regexp.FindStringSubmatch logRegex line = [].
Proof.
  intros Hn. destruct (logRegex_run line) as [[Hrun _]|(A & B & C & Hp & _)].
  - unfold regexp.FindStringSubmatch. rewrite search_logRegex, Hrun.
    reflexivity.
  - exfalso. apply Hn. destruct Hp as (w1 & w2 & Hs & _).
    exists A, w1, B, w2, C. exact Hs.
Qed.

Lemma classify_preferred (line A B C : gostring) :
  preferred line A B C -> classifyLine line = structured A B C.
Proof.
  intros Hp.
  assert (Hm : matchesPattern line).
  { destruct Hp as (w1 & w2 & Hs & _). exists A, w1, B, w2, C. exact Hs. }
  destruct (find_match line Hm) as (A' & B' & C' & Hp' & Hfind).
  destruct (preferred_unique _ _ _ _ _ _ _ Hp Hp') as (-> & -> & ->).
  unfold classifyLine. rewrite Hfind. reflexivity.
Qed.

Lemma classify_nomatch (line : gostring) :
  ~ matchesPattern line -> classifyLine line = rawEntry line.
Proof.
  intros Hn. unfold classifyLine. rewrite find_nomatch by exact Hn.
  reflexivity.
Qed.

(** ** Decoding UTF-8 *)

Lemma first_Lead_range (b : N) (sz : nat) (lo hi : N) :
  utf8.first b = utf8.Lead sz lo hi -> (128 <= lo)%N /\ (hi <= 191)%N.
Proof.
  unfold utf8.first.
  repeat match goal with
         | |- context [if ?t then _ else _] => destruct t
         end; intros H; inversion H; subst; lia.
Qed.

Lemma inRange_notCont (b : N) (sz : nat) (lo hi a : N) :
  utf8.first b = utf8.Lead sz lo hi -> utf8.isCont a = false ->
  utf8.inRange lo hi a = false.
Proof.
  intros Hf Ha. apply first_Lead_range in Hf as [Hlo Hhi].
  unfold utf8.isCont in Ha. unfold utf8.inRange.
  apply andb_false_iff in Ha as [Ha|Ha]; apply andb_false_iff;
    [left|right]; apply N.leb_gt; apply N.leb_gt in Ha; lia.
Qed.

(** A rune is at least one byte wide and does not reach past the string. *)
Lemma decode_size (s : gostring) :
  s <> [] ->
  1 <= snd (utf8.DecodeRuneInString s) <= length s.
Proof.
  intros Hne. unfold utf8.DecodeRuneInString.
  repeat match goal with
         | |- context [match ?l with [] => _ | _ :: _ => _ end] =>
           destruct l; simpl length
         | |- context [match utf8.first ?b with _ => _ end] =>
           destruct (utf8.first b)
         | |- context [if ?t then _ else _] => destruct t
         end; simpl; try lia; congruence.
Qed.

(** What follows a byte that is no continuation byte has no part in the
    decoding of what precedes it. *)
Lemma decode_app (x : gostring) (a : ascii) (y : gostring) :
  x <> [] -> utf8.isCont (code a) = false ->
  utf8.DecodeRuneInString (x ++ a :: y) = utf8.DecodeRuneInString x.
Proof.
  intros Hne Ha. destruct x as [|c0 x]; [congruence|]. simpl.
  destruct (utf8.first (code c0)) as [| |sz lo hi] eqn:Hf; try reflexivity.
  pose proof (inRange_notCont _ _ _ _ _ Hf Ha) as Hr.
  destruct x as [|c1 x]; simpl.
  { rewrite Hr. reflexivity. }
  destruct (negb (utf8.inRange lo hi (code c1))); [reflexivity|].
  destruct (sz <=? 2); [reflexivity|].
  destruct x as [|c2 x]; simpl.
  { rewrite Ha. reflexivity. }
  destruct (negb (utf8.isCont (code c2))); [reflexivity|].
  destruct (sz <=? 3); [reflexivity|].
  destruct x as [|c3 x]; simpl.
  { rewrite Ha. reflexivity. }
  reflexivity.
Qed.

Lemma decode_ascii (c : ascii) (s : gostring) :
  (code c < 128)%N -> utf8.DecodeRuneInString (c :: s) = (code c, 1).
Proof.
  intros Hc. simpl. unfold utf8.first.
  apply N.ltb_lt in Hc. rewrite Hc. reflexivity.
Qed.

Lemma runesFuel_enough : forall fuel fuel' s,
  length s <= fuel -> length s <= fuel' ->
  utf8.runesFuel fuel s = utf8.runesFuel fuel' s.
Proof.
  induction fuel as [|fuel IH]; intros fuel' s Hlen Hlen'.
  - destruct s; simpl in *; [destruct fuel'; reflexivity | lia].
  - destruct s as [|c s]; [destruct fuel'; reflexivity|].
    destruct fuel' as [|fuel']; [simpl in Hlen'; lia|].
    cbn [utf8.runesFuel].
    destruct (utf8.DecodeRuneInString (c :: s)) as [r size] eqn:Hd.
    pose proof (decode_size (c :: s) ltac:(congruence)) as Hsz.
    rewrite Hd in Hsz. simpl in Hsz, Hlen, Hlen'.
    f_equal. apply IH; rewrite length_drop; simpl; lia.
Qed.

(** The equation of [runes]. *)
Lemma runes_cons (c : ascii) (s : gostring) :
  utf8.runes (c :: s)
  = let '(r, size) := utf8.DecodeRuneInString (c :: s) in
    (r, take size (c :: s)) :: utf8.runes (drop size (c :: s)).
Proof.
  unfold utf8.runes. cbn [utf8.runesFuel length].
  destruct (utf8.DecodeRuneInString (c :: s)) as [r size] eqn:Hd.
  pose proof (decode_size (c :: s) ltac:(congruence)) as Hsz.
  rewrite Hd in Hsz. simpl in Hsz.
  f_equal. apply runesFuel_enough; rewrite ?length_drop; simpl; lia.
Qed.

Lemma runes_nil : utf8.runes [] = [].
Proof. reflexivity. Qed.

Lemma runes_ascii (c : ascii) (s : gostring) :
  (code c < 128)%N -> utf8.runes (c :: s) = (code c, [c]) :: utf8.runes s.
Proof.
  intros Hc. rewrite runes_cons, decode_ascii by exact Hc. reflexivity.
Qed.

(** Induction on a string rune by rune. *)
Lemma runes_ind (P : gostring -> Prop) :
  P [] ->
  (forall c s r size,
      utf8.DecodeRuneInString (c :: s) = (r, size) ->
      1 <= size <= length (c :: s) ->
      P (drop size (c :: s)) -> P (c :: s)) ->
  forall s, P s.
Proof.
  intros Hnil Hstep s.
  remember (length s) as n eqn:Hn. revert s Hn.
  induction n as [n IH] using lt_wf_ind. intros s ->.
  destruct s as [|c s]; [exact Hnil|].
  destruct (utf8.DecodeRuneInString (c :: s)) as [r size] eqn:Hd.
  pose proof (decode_size (c :: s) ltac:(congruence)) as Hsz.
  rewrite Hd in Hsz. simpl snd in Hsz.
  apply (Hstep c s r size Hd Hsz).
  apply (IH (length (drop size (c :: s)))); [|reflexivity].
  rewrite length_drop. simpl in *. lia.
Qed.

(** The runes of a string are made of its bytes. *)
Lemma bytes_runes (s : gostring) : utf8.bytes (utf8.runes s) = s.
Proof.
  induction s as [|c s r size Hd Hsz IH] using runes_ind; [reflexivity|].
  rewrite runes_cons, Hd. unfold utf8.bytes in *. cbn [map concat snd].
  rewrite IH. apply take_drop.
Qed.

(** A byte that is no continuation byte starts a rune, whatever precedes
    it. *)
Lemma runes_app (x : gostring) (a : ascii) (y : gostring) :
  utf8.isCont (code a) = false ->
  utf8.runes (x ++ a :: y) = utf8.runes x ++ utf8.runes (a :: y).
Proof.
  intros Ha.
  induction x as [|c s r size Hd Hsz IH] using runes_ind; [reflexivity|].
  change ((c :: s) ++ a :: y) with (c :: (s ++ a :: y)).
  rewrite (runes_cons c (s ++ a :: y)).
  change (c :: (s ++ a :: y)) with ((c :: s) ++ a :: y).
  rewrite decode_app by (congruence || exact Ha).
  rewrite Hd, (runes_cons c s), Hd.
  rewrite take_app_le by lia. rewrite drop_app_le by lia.
  rewrite IH. reflexivity.
Qed.

Lemma isCont_ascii (c : ascii) : (code c < 128)%N -> utf8.isCont (code c) = false.
Proof.
  intros Hc. unfold utf8.isCont. apply andb_false_iff. left.
  apply N.leb_gt. exact Hc.
Qed.

Lemma runes_snoc_ascii (x : gostring) (a : ascii) :
  (code a < 128)%N -> utf8.runes (x ++ [a]) = utf8.runes x ++ [(code a, [a])].
Proof.
  intros Ha. rewrite runes_app by (apply isCont_ascii; exact Ha).
  rewrite runes_ascii by exact Ha. reflexivity.
Qed.

(** ** Trimming *)

Section DropWhile.

Context {A : Type} (f : A -> bool).

Lemma dropWhile_all (l : list A) :
  forallb f l = true -> strings.dropWhile f l = [].
Proof.
  induction l as [|x l IH]; simpl; [reflexivity|].
  intros H. apply andb_prop in H as [Hx Hl]. rewrite Hx. auto.
Qed.

Lemma dropWhile_app (l m : list A) :
  existsb (fun x => negb (f x)) l = true ->
  strings.dropWhile f (l ++ m) = strings.dropWhile f l ++ m.
Proof.
  induction l as [|x l IH]; simpl; [discriminate|].
  destruct (f x); simpl; auto.
Qed.

Lemma dropWhile_exists (l : list A) :
  existsb (fun x => negb (f x)) l = true ->
  existsb (fun x => negb (f x)) (strings.dropWhile f l) = true.
Proof.
  induction l as [|x l IH]; simpl; [discriminate|].
  destruct (f x) eqn:Hx; simpl; auto. rewrite Hx. reflexivity.
Qed.

Lemma not_exists_all (l : list A) :
  existsb (fun x => negb (f x)) l = false -> forallb f l = true.
Proof.
  induction l as [|x l IH]; simpl; [reflexivity|].
  destruct (f x); simpl; auto; discriminate.
Qed.

Lemma dropWhileEnd_all (l : list A) :
  forallb f l = true -> strings.dropWhileEnd f l = [].
Proof.
  induction l as [|x l IH]; simpl; [reflexivity|].
  intros H. apply andb_prop in H as [Hx Hl]. rewrite IH, Hx by exact Hl.
  reflexivity.
Qed.

Lemma dropWhileEnd_keep (m : list A) :
  existsb (fun x => negb (f x)) m = true -> strings.dropWhileEnd f m <> [].
Proof.
  induction m as [|x m IH]; simpl; [discriminate|].
  destruct (strings.dropWhileEnd f m) eqn:Hm.
  - destruct (f x) eqn:Hx; simpl; [|discriminate].
    intros H. exfalso. apply IH; auto.
  - discriminate.
Qed.

Lemma dropWhileEnd_app (l m : list A) :
  existsb (fun x => negb (f x)) m = true ->
  strings.dropWhileEnd f (l ++ m) = l ++ strings.dropWhileEnd f m.
Proof.
  intros Hm. induction l as [|x l IH]; simpl; [reflexivity|].
  rewrite IH. pose proof (dropWhileEnd_keep m Hm) as Hne.
  destruct (l ++ strings.dropWhileEnd f m) eqn:Heq; [|reflexivity].
  apply app_eq_nil in Heq as [_ Heq]. contradiction.
Qed.

Lemma dropWhileEnd_snoc (l : list A) (x : A) :
  f x = true ->
  strings.dropWhileEnd f (l ++ [x]) = strings.dropWhileEnd f l.
Proof.
  intros Hx. induction l as [|y l IH]; simpl.
  - rewrite Hx. reflexivity.
  - rewrite IH. reflexivity.
Qed.

Lemma trim_snoc (l : list A) (x : A) :
  f x = true ->
  strings.dropWhileEnd f (strings.dropWhile f (l ++ [x]))
  = strings.dropWhileEnd f (strings.dropWhile f l).
Proof.
  intros Hx.
  destruct (existsb (fun x => negb (f x)) l) eqn:He.
  - rewrite dropWhile_app by exact He. apply dropWhileEnd_snoc, Hx.
  - apply not_exists_all in He.
    rewrite (dropWhile_all l He).
    rewrite dropWhile_all; [reflexivity|].
    rewrite forallb_app, He. simpl. rewrite Hx. reflexivity.
Qed.

(** What is left of a list after [dropWhileEnd] does not end with an
    element that satisfies [f]. *)
Lemma dropWhileEnd_last (l : list A) (x : A) :
  last (strings.dropWhileEnd f l) = Some x -> f x = false.
Proof.
  revert x. induction l as [|y l IH]; simpl; intros x; [discriminate|].
  destruct (strings.dropWhileEnd f l) as [|z l'] eqn:Hl.
  - destruct (f y) eqn:Hy; simpl; [discriminate|].
    intros [= <-]. exact Hy.
  - intros H. apply IH. exact H.
Qed.

Lemma dropWhileEnd_prefix (l : list A) :
  exists m, l = strings.dropWhileEnd f l ++ m.
Proof.
  induction l as [|y l [m IH]]; simpl; [exists []; reflexivity|].
  destruct (strings.dropWhileEnd f l) as [|z l'] eqn:Hl.
  - destruct (f y).
    + exists (y :: l). reflexivity.
    + exists m. simpl in *. congruence.
  - exists m. simpl in *. congruence.
Qed.

Lemma dropWhile_suffix (l : list A) :
  exists m, l = m ++ strings.dropWhile f l.
Proof.
  induction l as [|y l [m IH]]; simpl; [exists []; reflexivity|].
  destruct (f y).
  - exists (y :: m). simpl. congruence.
  - exists []. reflexivity.
Qed.

End DropWhile.

(** The runes that remain after leading ones are dropped are the runes of
    the bytes that remain. *)
Lemma dropWhile_runes (f : N * gostring -> bool) (s : gostring) :
  utf8.runes (utf8.bytes (strings.dropWhile f (utf8.runes s)))
  = strings.dropWhile f (utf8.runes s).
Proof.
  induction s as [|c s r size Hd Hsz IH] using runes_ind; [reflexivity|].
  rewrite runes_cons, Hd. cbn [strings.dropWhile].
  destruct (f (r, take size (c :: s))).
  - exact IH.
  - pose proof (bytes_runes (c :: s)) as Hb.
    rewrite runes_cons, Hd in Hb. rewrite Hb.
    rewrite runes_cons, Hd. reflexivity.
Qed.

Lemma TrimFunc_runes (s : gostring) (f : N -> bool) :
  strings.TrimFunc s f
  = utf8.bytes (strings.dropWhileEnd (fun rb => f (fst rb))
                  (strings.dropWhile (fun rb => f (fst rb)) (utf8.runes s))).
Proof.
  unfold strings.TrimFunc, strings.TrimRightFunc, strings.TrimLeftFunc.
  rewrite dropWhile_runes. reflexivity.
Qed.

Lemma TrimSpace_runes (s : gostring) :
  strings.TrimSpace s
  = utf8.bytes (strings.dropWhileEnd spaceRune
                  (strings.dropWhile spaceRune (utf8.runes s))).
Proof. apply TrimFunc_runes. Qed.

(** An ASCII white space at the end of a string, or at its start, is
    trimmed with the rest. *)
Lemma TrimSpace_snoc (s : gostring) (a : ascii) :
  (code a < 128)%N -> unicode.IsSpace (code a) = true ->
  strings.TrimSpace (s ++ [a]) = strings.TrimSpace s.
Proof.
  intros Ha Hsp. rewrite !TrimSpace_runes, runes_snoc_ascii by exact Ha.
  rewrite trim_snoc; [reflexivity | exact Hsp].
Qed.

Lemma TrimSpace_cons (a : ascii) (s : gostring) :
  (code a < 128)%N -> unicode.IsSpace (code a) = true ->
  strings.TrimSpace (a :: s) = strings.TrimSpace s.
Proof.
  intros Ha Hsp. rewrite !TrimSpace_runes, runes_ascii by exact Ha.
  cbn [strings.dropWhile]. unfold spaceRune at 2. cbn [fst].
  rewrite Hsp. reflexivity.
Qed.

Lemma bytes_app (l m : list (N * gostring)) :
  utf8.bytes (l ++ m) = utf8.bytes l ++ utf8.bytes m.
Proof. unfold utf8.bytes. rewrite map_app, concat_app. reflexivity. Qed.

(** An ASCII byte between two strings that both have a rune other than
    white space stays where it is: the left string is trimmed on the left,
    the right one on the right. *)
Lemma TrimSpace_middle (u : gostring) (a : ascii) (v : gostring) :
  (code a < 128)%N -> hasNonSpace u -> hasNonSpace v ->
  strings.TrimSpace (u ++ a :: v)
  = strings.TrimLeftFunc u unicode.IsSpace
    ++ a :: strings.TrimRightFunc v unicode.IsSpace.
Proof.
  intros Ha Hu Hv. unfold hasNonSpace in *.
  rewrite TrimSpace_runes.
  rewrite runes_app by (apply isCont_ascii; exact Ha).
  rewrite runes_ascii by exact Ha.
  rewrite dropWhile_app by exact Hu.
  change (?l ++ ?x :: ?m) with (l ++ [x] ++ m).
  rewrite app_assoc.
  rewrite dropWhileEnd_app by exact Hv.
  rewrite !bytes_app. unfold strings.TrimLeftFunc, strings.TrimRightFunc.
  rewrite <- app_assoc. reflexivity.
Qed.

(** The bytes of a decoded rune: there is at least one, and when the last
    one is ASCII the rune is that byte. *)
Definition runeBytes (rb : N * gostring) : Prop :=
  snd rb <> []
  /\ forall c, last (snd rb) = Some c -> (code c < 128)%N -> fst rb = code c.

Lemma first_As (b : N) : (b < 128)%N -> utf8.first b = utf8.As.
Proof. intros H. unfold utf8.first. apply N.ltb_lt in H. rewrite H. reflexivity. Qed.

Lemma first_not_As (b : N) : utf8.first b <> utf8.As -> (128 <= b)%N.
Proof.
  intros H. destruct (N.ltb_spec b 128) as [Hlt|Hge]; [|exact Hge].
  exfalso. apply H, first_As, Hlt.
Qed.

Lemma isCont_ge (b : N) : utf8.isCont b = true -> (128 <= b)%N.
Proof.
  unfold utf8.isCont. intros H. apply andb_prop in H as [H _].
  apply N.leb_le in H. exact H.
Qed.

Lemma inRange_ge (b0 : N) (sz : nat) (lo hi b : N) :
  utf8.first b0 = utf8.Lead sz lo hi -> utf8.inRange lo hi b = true ->
  (128 <= b)%N.
Proof.
  intros Hf H. apply first_Lead_range in Hf as [Hlo _].
  unfold utf8.inRange in H. apply andb_prop in H as [H _].
  apply N.leb_le in H. lia.
Qed.

Lemma decode_runeBytes (c0 : ascii) (s : gostring) (r : N) (size : nat) :
  utf8.DecodeRuneInString (c0 :: s) = (r, size) ->
  runeBytes (r, take size (c0 :: s)).
Proof.
  unfold runeBytes. cbn [fst snd]. intros Hd.
  assert (Hone : forall r', (r' = utf8.RuneError /\ utf8.first (code c0) <> utf8.As
                             \/ r' = code c0) ->
                 [c0] <> [] /\
                 (forall c, last [c0] = Some c -> (code c < 128)%N -> r' = code c)).
  { intros r' Hr. split; [discriminate|]. intros c [= <-] Hc.
    destruct Hr as [[_ Hf]|Hr]; [|exact Hr].
    apply first_not_As in Hf. lia. }
  simpl in Hd.
  destruct (utf8.first (code c0)) as [| |sz lo hi] eqn:Hf.
  - injection Hd as <- <-. apply Hone. right. reflexivity.
  - injection Hd as <- <-. apply Hone. left. split; [reflexivity|congruence].
  - assert (Herr : (utf8.RuneError, 1) = (r, size) ->
                   take size (c0 :: s) <> [] /\
                   (forall c, last (take size (c0 :: s)) = Some c ->
                              (code c < 128)%N -> r = code c)).
    { intros [= <- <-]. apply Hone. left. split; [reflexivity|congruence]. }
    destruct s as [|c1 s]; [auto|].
    destruct (utf8.inRange lo hi (code c1)) eqn:Hr1; simpl in Hd; [|auto].
    pose proof (inRange_ge _ _ _ _ _ Hf Hr1) as H1.
    destruct (sz <=? 2).
    { injection Hd as <- <-. split; [discriminate|].
      intros c [= <-] Hc. lia. }
    destruct s as [|c2 s]; [auto|].
    destruct (utf8.isCont (code c2)) eqn:Hr2; simpl in Hd; [|auto].
    apply isCont_ge in Hr2.
    destruct (sz <=? 3).
    { injection Hd as <- <-. split; [discriminate|].
      intros c [= <-] Hc. lia. }
    destruct s as [|c3 s]; [auto|].
    destruct (utf8.isCont (code c3)) eqn:Hr3; simpl in Hd; [|auto].
    apply isCont_ge in Hr3.
    injection Hd as <- <-. split; [discriminate|].
    intros c [= <-] Hc. lia.
Qed.

Lemma runes_runeBytes (s : gostring) : Forall runeBytes (utf8.runes s).
Proof.
  induction s as [|c s r size Hd Hsz IH] using runes_ind; [constructor|].
  rewrite runes_cons, Hd. constructor; [|exact IH].
  apply decode_runeBytes, Hd.
Qed.

Lemma perlSpace_IsSpace (c : ascii) :
  regexp.perlSpace c = true ->
  (code c < 128)%N /\ unicode.IsSpace (code c) = true.
Proof.
  unfold regexp.perlSpace, beq. intros H.
  repeat (apply orb_prop in H as [H|H]);
    apply Ascii.eqb_eq in H; subst c; split; reflexivity.
Qed.

Lemma last_app_ne {A} (l m : list A) : m <> [] -> last (l ++ m) = last m.
Proof.
  intros Hm. rewrite last_app.
  destruct (last m) eqn:Hl; [reflexivity|].
  apply last_None in Hl. contradiction.
Qed.

(** A trimmed string does not end with a character of the class [\\s]. *)
Lemma TrimSpace_last (s : gostring) (c : ascii) :
  last (strings.TrimSpace s) = Some c -> regexp.perlSpace c = false.
Proof.
  rewrite TrimSpace_runes.
  set (D := strings.dropWhile spaceRune (utf8.runes s)).
  assert (HD : Forall runeBytes D).
  { destruct (dropWhile_suffix spaceRune (utf8.runes s)) as [m Hm].
    pose proof (runes_runeBytes s) as Hall. rewrite Hm in Hall.
    apply Forall_app in Hall. tauto. }
  destruct (dropWhileEnd_prefix spaceRune D) as [m Hm].
  rewrite Hm in HD. apply Forall_app in HD as [HL _].
  pose proof (dropWhileEnd_last spaceRune D) as Hlast.
  destruct (strings.dropWhileEnd spaceRune D) as [|rb L] using rev_ind;
    [discriminate|].
  rewrite last_snoc in Hlast. specialize (Hlast rb eq_refl).
  apply Forall_app in HL as [_ Hrb]. inversion Hrb as [|? ? [Hne Hc] _]; subst.
  rewrite bytes_app. unfold utf8.bytes at 2. cbn [map concat].
  rewrite app_nil_r, last_app_ne by exact Hne.
  intros Hl. destruct (regexp.perlSpace c) eqn:Hp; [|reflexivity].
  apply perlSpace_IsSpace in Hp as [Hlt Hsp].
  unfold spaceRune in Hlast. rewrite (Hc c Hl Hlt) in Hlast. congruence.
Qed.

(** ** Splitting *)

Lemma Split_nonempty (s : gostring) (sep : ascii) : strings.Split s sep <> [].
Proof.
  destruct s as [|c s]; simpl; [discriminate|].
  destruct (beq c sep); [discriminate|].
  destruct (strings.Split s sep); discriminate.
Qed.

Lemma Split_cons_other (c : ascii) (s : gostring) (sep : ascii) :
  beq c sep = false ->
  exists h t, strings.Split s sep = h :: t
              /\ strings.Split (c :: s) sep = (c :: h) :: t.
Proof.
  intros Hc. simpl. rewrite Hc.
  destruct (strings.Split s sep) as [|h t] eqn:Hs.
  - exfalso. eapply Split_nonempty; eauto.
  - exists h, t. auto.
Qed.

Lemma Split_app (x y : gostring) (sep : ascii) :
  strings.Split (x ++ sep :: y) sep
  = strings.Split x sep ++ strings.Split y sep.
Proof.
  induction x as [|c x IH]; simpl.
  - unfold beq. rewrite Ascii.eqb_refl. reflexivity.
  - destruct (beq c sep); rewrite IH; [reflexivity|].
    destruct (strings.Split x sep) as [|h t] eqn:Hs; [|reflexivity].
    exfalso. eapply Split_nonempty; eauto.
Qed.

Lemma Split_snoc_other (x : gostring) (c sep : ascii) :
  beq c sep = false ->
  exists ls l, strings.Split x sep = ls ++ [l]
               /\ strings.Split (x ++ [c]) sep = ls ++ [l ++ [c]].
Proof.
  intros Hc. induction x as [|d x (ls & l & Hx & IH)]; simpl.
  - rewrite Hc. exists [], []. auto.
  - rewrite Hx, IH. destruct (beq d sep).
    + exists ([] :: ls), l. auto.
    + destruct ls as [|h t]; simpl.
      * exists [], (d :: l). auto.
      * exists ((d :: h) :: t), l. auto.
Qed.

(** A string without the separator is one segment. *)
Lemma Split_none (s : gostring) (sep : ascii) :
  forallb (fun c => negb (beq c sep)) s = true -> strings.Split s sep = [s].
Proof.
  induction s as [|c s IH]; simpl; [reflexivity|].
  intros H. apply andb_prop in H as [Hc Hs].
  apply negb_true_iff in Hc. rewrite Hc, IH by exact Hs. reflexivity.
Qed.

(** The segments have no separator in them, and joined by the separator
    they are the string. *)
Lemma Split_segments (s : gostring) (sep : ascii) :
  Forall (fun l => forallb (fun c => negb (beq c sep)) l = true)
         (strings.Split s sep).
Proof.
  induction s as [|c s IH]; simpl.
  - repeat constructor.
  - destruct (beq c sep) eqn:Hc.
    + constructor; [reflexivity | exact IH].
    + destruct (strings.Split s sep) as [|h t];
        [repeat constructor; simpl; rewrite Hc; reflexivity|].
      inversion IH; subst. constructor; [|assumption].
      simpl. rewrite Hc. simpl. assumption.
Qed.

Lemma Split_join (s : gostring) (sep : ascii) :
  json.join [sep] (strings.Split s sep) = s.
Proof.
  induction s as [|c s IH]; simpl; [reflexivity|].
  destruct (beq c sep) eqn:Hc.
  - apply Ascii.eqb_eq in Hc. subst c.
    destruct (strings.Split s sep) as [|h t] eqn:Hs.
    + exfalso. eapply Split_nonempty; eauto.
    + simpl in *. rewrite IH. reflexivity.
  - destruct (strings.Split s sep) as [|h t] eqn:Hs.
    + exfalso. eapply Split_nonempty; eauto.
    + simpl in *. destruct t; simpl in *; rewrite <- IH; reflexivity.
Qed.

(** ** The loop over the lines *)

Lemma fold_parseLine (lines : list gostring) : forall acc,
  elems (fold_left parseLine lines acc)
  = elems acc
    ++ map classifyLine
         (List.filter (fun l => negb (isEmpty l)) (map strings.TrimSpace lines)).
Proof.
  induction lines as [|l lines IH]; intros acc; simpl.
  - rewrite app_nil_r. reflexivity.
  - rewrite IH. unfold parseLine.
    destruct (isEmpty (strings.TrimSpace l)); simpl; [reflexivity|].
    unfold append, elems at 1. simpl. rewrite <- app_assoc. reflexivity.
Qed.

(** The loop reads a line through [TrimSpace] only. *)
Lemma fold_parseLine_trim (ls ls' : list gostring) : forall acc,
  map strings.TrimSpace ls = map strings.TrimSpace ls' ->
  fold_left parseLine ls acc = fold_left parseLine ls' acc.
Proof.
  revert ls'. induction ls as [|l ls IH]; intros [|l' ls'] acc Heq;
    try discriminate; [reflexivity|].
  simpl in *. injection Heq as Hl Hls.
  replace (parseLine acc l') with (parseLine acc l)
    by (unfold parseLine; rewrite Hl; reflexivity).
  apply IH, Hls.
Qed.

Lemma parseLogText_entries (text : gostring) :
  elems (parseLogText text) = map classifyLine (trimmedLines text).
Proof. unfold parseLogText. rewrite fold_parseLine. reflexivity. Qed.

Lemma parseLogText_nil (text : gostring) :
  parseLogText text = None <-> trimmedLines text = [].
Proof.
  unfold parseLogText, trimmedLines.
  generalize (strings.Split text LF). intros lines.
  assert (G : forall acc, fold_left parseLine lines acc = None <->
                          acc = None /\
                          List.filter (fun l => negb (isEmpty l))
                                 (map strings.TrimSpace lines) = []).
  { induction lines as [|l lines IH]; intros acc; simpl.
    - tauto.
    - rewrite IH. unfold parseLine.
      destruct (isEmpty (strings.TrimSpace l)); simpl; [tauto|].
      unfold append. split; intros [H H']; discriminate. }
  rewrite G. tauto.
Qed.

(** ** The encoder *)

Opaque json.appendString.

Lemma entryText_members (e : LogEntry) :
  entryText e = objectText (members e).
Proof.
  unfold entryText, members, objectText, json.encodeStruct, LogEntry_fields.
  destruct e as [T L M R]. cbn [Timestamp Level Message Raw fold_left].
  unfold json.encodeField. cbn [json.omitEmpty json.value json.name andb snd].
  cbn [List.filter snd].
  destruct (isEmpty T), (isEmpty L), (isEmpty M), (isEmpty R);
    cbn; try reflexivity;
    unfold memberText; cbn [fst snd];
    repeat (rewrite <- ?app_assoc; cbn [app]); reflexivity.
Qed.

Transparent json.appendString.

Lemma objectKeys_members (e : LogEntry) :
  json.objectKeys (LogEntry_fields e) = map fst (members e).
Proof.
  unfold json.objectKeys, members, LogEntry_fields.
  destruct e as [T L M R]. cbn [Timestamp Level Message Raw].
  cbn [List.filter json.omitEmpty json.value andb snd].
  destruct (isEmpty T), (isEmpty L), (isEmpty M), (isEmpty R); reflexivity.
Qed.

Lemma trimmedLines_spec (text : gostring) :
  Forall (fun l => l <> [] /\ exists s, l = strings.TrimSpace s)
         (trimmedLines text).
Proof.
  unfold trimmedLines. generalize (strings.Split text LF). intros lines.
  induction lines as [|s lines IH]; simpl; [constructor|].
  destruct (strings.TrimSpace s) eqn:Hs; simpl; [exact IH|].
  constructor; [|exact IH]. split; [discriminate|]. exists s. congruence.
Qed.

Lemma encodeSlice_entries (text : gostring) :
  trimmedLines text <> [] ->
  json.encodeSlice entryText (parseLogText text)
  = arrayText (map (fun e => objectText (members e))
                   (map classifyLine (trimmedLines text))).
Proof.
  intros Hne. pose proof (parseLogText_entries text) as He.
  destruct (parseLogText text) as [l|] eqn:Hp.
  - unfold elems in He. simpl in He. subst l. unfold json.encodeSlice, arrayText.
    do 3 f_equal. apply map_ext. intros e. apply entryText_members.
  - apply parseLogText_nil in Hp. contradiction.
Qed.

(** ** The handler, way out by way out *)

Section Ways.

Variable marshal : slice LogEntry -> result gostring.

(** The events of a request up to the call of the database, and after it. *)
Lemma serveOneWith_rejected (r : http.Request) (o : Outcomes) (w : World) :
  http.Method r <> http.MethodPost ->
  serveOneWith marshal r o w
  = (mkResponse 405 errorHeader (go "Method not allowed" ++ [LF]),
     mkWorld
       (events w
        ++ [EvLog (LogReceived (http.ReqRemoteAddr r) (http.Method r)
                               (http.URLPath r));
            EvLog (LogRejected (http.ReqRemoteAddr r) (http.Method r));
            EvExec (rejectedRecord r o)]
        ++ insertLog o)
       (inserted o (rejectedRecord r o) (delogged w))).
Proof.
  intros Hm. run_handler.
  rewrite bool_decide_eq_false_2 by exact Hm. cbn [negb].
  unfold insertLog, inserted.
  destruct (execErr o); cbn [writer world events delogged fst snd];
    rewrite <- ?app_assoc; reflexivity.
Qed.

Lemma serveOneWith_unread (r : http.Request) (o : Outcomes) (w : World)
      (err : gostring) :
  http.Method r = http.MethodPost -> http.Body r = Err err ->
  serveOneWith marshal r o w
  = (mkResponse 500 errorHeader (go "Could not read request body" ++ [LF]),
     mkWorld
       (events w
        ++ [EvLog (LogReceived (http.ReqRemoteAddr r) (http.Method r)
                               (http.URLPath r));
            EvReadAll;
            EvLog (LogReadError (http.ReqRemoteAddr r) err);
            EvExec (unreadRecord r o)]
        ++ insertLog o)
       (inserted o (unreadRecord r o) (delogged w))).
Proof.
  intros Hm Hb. run_handler.
  rewrite bool_decide_eq_true_2 by exact Hm. cbn [negb]. rewrite Hb.
  unfold insertLog, inserted.
  destruct (execErr o); cbn [writer world events delogged fst snd];
    rewrite <- ?app_assoc; reflexivity.
Qed.

Lemma serveOneWith_unencoded (r : http.Request) (o : Outcomes) (w : World)
      (text err : gostring) :
  http.Method r = http.MethodPost -> http.Body r = Ok text ->
  marshal (parseLogText text) = Err err ->
  serveOneWith marshal r o w
  = (mkResponse 500 errorHeader (go "Error creating JSON response" ++ [LF]),
     mkWorld
       (events w
        ++ [EvLog (LogReceived (http.ReqRemoteAddr r) (http.Method r)
                               (http.URLPath r));
            EvReadAll;
            EvLog (LogSize (length text));
            EvLog (LogMarshalError (http.ReqRemoteAddr r) err);
            EvExec (unencodedRecord r o text)]
        ++ insertLog o)
       (inserted o (unencodedRecord r o text) (delogged w))).
Proof.
  intros Hm Hb He. run_handler.
  rewrite bool_decide_eq_true_2 by exact Hm. cbn [negb]. rewrite Hb, He.
  unfold insertLog, inserted.
  destruct (execErr o); cbn [writer world events delogged fst snd];
    rewrite <- ?app_assoc; reflexivity.
Qed.

Lemma serveOneWith_encoded (r : http.Request) (o : Outcomes) (w : World)
      (text responseBody : gostring) :
  http.Method r = http.MethodPost -> http.Body r = Ok text ->
  marshal (parseLogText text) = Ok responseBody ->
  serveOneWith marshal r o w
  = (mkResponse 200 okHeader responseBody,
     mkWorld
       (events w
        ++ [EvLog (LogReceived (http.ReqRemoteAddr r) (http.Method r)
                               (http.URLPath r));
            EvReadAll;
            EvLog (LogSize (length text))]
        ++ writeLog r o
        ++ [EvLog (LogSent (http.ReqRemoteAddr r));
            EvExec (encodedRecord r o text responseBody)]
        ++ insertLog o)
       (inserted o (encodedRecord r o text responseBody) (delogged w))).
Proof.
  intros Hm Hb He. run_handler.
  rewrite bool_decide_eq_true_2 by exact Hm. cbn [negb]. rewrite Hb, He.
  unfold insertLog, writeLog, inserted.
  destruct (execErr o), (writeErr o);
    cbn [writer world events delogged fst snd];
    rewrite <- ?app_assoc; reflexivity.
Qed.

(** The record and the response of the body, for the same four ways. *)
Lemma body_rejected (r : http.Request) (o : Outcomes) (w : World) :
  http.Method r <> http.MethodPost ->
  bodyOutcomeWith marshal r o w
  = (rejectedRecord r o,
     mkResponse 405 errorHeader (go "Method not allowed" ++ [LF])).
Proof.
  intros Hm. unfold bodyOutcomeWith. run_handler.
  rewrite bool_decide_eq_false_2 by exact Hm. reflexivity.
Qed.

Lemma body_unread (r : http.Request) (o : Outcomes) (w : World)
      (err : gostring) :
  http.Method r = http.MethodPost -> http.Body r = Err err ->
  bodyOutcomeWith marshal r o w
  = (unreadRecord r o,
     mkResponse 500 errorHeader (go "Could not read request body" ++ [LF])).
Proof.
  intros Hm Hb. unfold bodyOutcomeWith. run_handler.
  rewrite bool_decide_eq_true_2 by exact Hm. rewrite Hb. reflexivity.
Qed.

Lemma body_unencoded (r : http.Request) (o : Outcomes) (w : World)
      (text err : gostring) :
  http.Method r = http.MethodPost -> http.Body r = Ok text ->
  marshal (parseLogText text) = Err err ->
  bodyOutcomeWith marshal r o w
  = (unencodedRecord r o text,
     mkResponse 500 errorHeader (go "Error creating JSON response" ++ [LF])).
Proof.
  intros Hm Hb He. unfold bodyOutcomeWith. run_handler.
  rewrite bool_decide_eq_true_2 by exact Hm. rewrite Hb, He. reflexivity.
Qed.

Lemma body_encoded (r : http.Request) (o : Outcomes) (w : World)
      (text responseBody : gostring) :
  http.Method r = http.MethodPost -> http.Body r = Ok text ->
  marshal (parseLogText text) = Ok responseBody ->
  bodyOutcomeWith marshal r o w
  = (encodedRecord r o text responseBody,
     mkResponse 200 okHeader responseBody).
Proof.
  intros Hm Hb He. unfold bodyOutcomeWith. run_handler.
  rewrite bool_decide_eq_true_2 by exact Hm. rewrite Hb, He.
  destruct (writeErr o); reflexivity.
Qed.

(** Every request leaves the handler by one of the four ways. *)
Lemma ways_out (r : http.Request) :
  http.Method r <> http.MethodPost
  \/ (http.Method r = http.MethodPost /\ exists err, http.Body r = Err err)
  \/ (http.Method r = http.MethodPost
      /\ exists text, http.Body r = Ok text
                      /\ exists err, marshal (parseLogText text) = Err err)
  \/ (http.Method r = http.MethodPost
      /\ exists text, http.Body r = Ok text
                      /\ exists b, marshal (parseLogText text) = Ok b).
Proof.
  destruct (decide (http.Method r = http.MethodPost)) as [Hm|Hm]; [|auto].
  right. destruct (http.Body r) as [text|err] eqn:Hb; [|eauto].
  right. destruct (marshal (parseLogText text)) as [b|err] eqn:He; eauto 10.
Qed.

End Ways.

(** The handler of [main.go]: its encoder does not fail. *)
Lemma serveOne_rejected (r : http.Request) (o : Outcomes) (w : World) :
  http.Method r <> http.MethodPost ->
  serveOne r o w
  = (mkResponse 405 errorHeader (go "Method not allowed" ++ [LF]),
     mkWorld
       (events w
        ++ [EvLog (LogReceived (http.ReqRemoteAddr r) (http.Method r)
                               (http.URLPath r));
            EvLog (LogRejected (http.ReqRemoteAddr r) (http.Method r));
            EvExec (rejectedRecord r o)]
        ++ insertLog o)
       (inserted o (rejectedRecord r o) (delogged w))).
Proof. apply serveOneWith_rejected. Qed.

Lemma serveOne_served (r : http.Request) (o : Outcomes) (w : World)
      (text : gostring) :
  http.Method r = http.MethodPost -> http.Body r = Ok text ->
  serveOne r o w
  = (mkResponse 200 okHeader (json.encodeSlice entryText (parseLogText text)),
     mkWorld
       (events w
        ++ [EvLog (LogReceived (http.ReqRemoteAddr r) (http.Method r)
                               (http.URLPath r));
            EvReadAll;
            EvLog (LogSize (length text))]
        ++ writeLog r o
        ++ [EvLog (LogSent (http.ReqRemoteAddr r));
            EvExec (servedRecord r o text)]
        ++ insertLog o)
       (inserted o (servedRecord r o text) (delogged w))).
Proof.
  intros Hm Hb.
  apply (serveOneWith_encoded Marshal r o w text _ Hm Hb). reflexivity.
Qed.

Lemma execs_app (l m : list Event) : execs (l ++ m) = execs l ++ execs m.
Proof. unfold execs. apply flat_map_app. Qed.

Lemma execs_insertLog (o : Outcomes) : execs (insertLog o) = [].
Proof. unfold insertLog. destruct (execErr o); reflexivity. Qed.

Lemma execs_writeLog (r : http.Request) (o : Outcomes) :
  execs (writeLog r o) = [].
Proof. unfold writeLog. destruct (writeErr o); reflexivity. Qed.

(** ** Lines that match and lines that do not *)

Lemma preferred_matches (line A B C : gostring) :
  preferred line A B C -> matchesPattern line.
Proof. intros (w1 & w2 & Hs & _). exists A, w1, B, w2, C. exact Hs. Qed.

Lemma matchesb_true (line : gostring) :
  matchesb line = true <-> matchesPattern line.
Proof.
  unfold matchesb.
  destruct (logRegex_run line) as [[_ Hn]|(A & B & C & Hp & _)].
  - rewrite (find_nomatch line Hn). split; [discriminate | contradiction].
  - pose proof (preferred_matches _ _ _ _ Hp) as Hm.
    destruct (find_match line Hm) as (A' & B' & C' & _ & ->). tauto.
Qed.

Lemma matchesb_false (line : gostring) :
  matchesb line = false <-> ~ matchesPattern line.
Proof.
  rewrite <- matchesb_true. destruct (matchesb line); split; congruence.
Qed.

(** A line that does not start with an opening bracket does not match. *)
Lemma nomatch_head (line : gostring) :
  head line <> Some "["%char -> ~ matchesPattern line.
Proof.
  intros Hh (A & w1 & B & w2 & C & -> & _). apply Hh. reflexivity.
Qed.

Lemma count_occ_middle (l m : gostring) (c : ascii) :
  count_occ ascii_dec (l ++ c :: m) c
  = count_occ ascii_dec l c + S (count_occ ascii_dec m c).
Proof. rewrite count_occ_app, count_occ_cons_eq by reflexivity. reflexivity. Qed.

(** A line with fewer than two closing brackets does not match. *)
Lemma nomatch_one_group (line : gostring) :
  count_occ ascii_dec line "]"%char < 2 -> ~ matchesPattern line.
Proof.
  intros Hc (A & w1 & B & w2 & C & -> & _).
  rewrite count_occ_cons_neq in Hc by discriminate.
  rewrite count_occ_middle in Hc.
  change (w1 ++ "["%char :: B ++ "]"%char :: w2 ++ C)
    with (w1 ++ ("["%char :: B) ++ "]"%char :: w2 ++ C) in Hc.
  rewrite app_assoc, count_occ_middle in Hc. lia.
Qed.

(** In a trimmed line that matches, something follows the white space after
    the second group. *)
Lemma trimmed_rest (s A w1 B w2 C : gostring) :
  shape (strings.TrimSpace s) A w1 B w2 C -> C <> [].
Proof.
  intros (Heq & _ & _ & _ & [Hne Hw] & _) ->.
  rewrite app_nil_r in Heq.
  destruct w2 as [|x w2 _] using rev_ind; [congruence|].
  rewrite forallb_app in Hw. apply andb_prop in Hw as [_ Hx].
  simpl in Hx. rewrite andb_true_r in Hx.
  assert (Hl : last (strings.TrimSpace s) = Some x).
  { rewrite Heq.
    change ("["%char :: A ++ "]"%char :: w1 ++ "["%char :: B ++ "]"%char :: w2 ++ [x])
      with (("["%char :: A) ++ ("]"%char :: w1) ++ ("["%char :: B) ++ ("]"%char :: w2) ++ [x]).
    rewrite !app_assoc. apply last_snoc. }
  apply TrimSpace_last in Hl. congruence.
Qed.

(** A reading of a line whose groups hold no closing bracket and whose rest
    does not start with white space is the preferred one. *)
Lemma bracket_cut (A A' x x' : gostring) :
  ~ In "]"%char A -> A ++ "]"%char :: x = A' ++ "]"%char :: x' ->
  length A <= length A'.
Proof.
  intros Hin Heq.
  destruct (le_lt_dec (length A) (length A')) as [Hle|Hlt]; [exact Hle|].
  exfalso. symmetry in Heq.
  destruct (app_cut A' _ A _ Heq) as (d & -> & Hd); [lia|].
  destruct d as [|y d].
  - rewrite length_app in Hlt. simpl in Hlt. lia.
  - simpl in Hd. injection Hd as <- _.
    apply Hin. apply in_or_app. right. left. reflexivity.
Qed.

Lemma preferred_simple (line A w1 B w2 C : gostring) :
  shape line A w1 B w2 C ->
  ~ In "]"%char A -> ~ In "]"%char B ->
  (forall c, head C = Some c -> regexp.perlSpace c = false) ->
  preferred line A B C.
Proof.
  intros Hs HA HB HC. exists w1, w2. split; [exact Hs|].
  intros A' w1' B' w2' C' Hs'.
  destruct Hs as (-> & _ & [_ Hw1] & _ & [_ Hw2] & _).
  destruct Hs' as (Heq & _ & [_ Hw1'] & _ & [_ Hw2'] & _).
  injection Heq as Heq. split.
  { eapply bracket_cut; eauto. }
  intros Hlen. apply app_cut_eq in Heq as [<- Heq]; [|lia].
  injection Heq as Heq.
  apply space_run_unique in Heq as [<- Heq]; auto. split.
  { eapply bracket_cut; eauto. }
  intros Hlen'. apply app_cut_eq in Heq as [<- Heq]; [|lia].
  injection Heq as Heq.
  destruct (le_lt_dec (length w2') (length w2)) as [Hle|Hlt]; [exact Hle|].
  exfalso. destruct (app_cut w2 C w2' C' Heq) as (d & -> & ->); [lia|].
  destruct d as [|y d].
  - rewrite length_app in Hlt. simpl in Hlt. lia.
  - rewrite forallb_app in Hw2'. apply andb_prop in Hw2' as [_ Hd].
    simpl in Hd. apply andb_prop in Hd as [Hy _].
    specialize (HC y eq_refl). congruence.
Qed.

(** ** Carriage returns *)

Lemma CR_space : (code CR < 128)%N /\ unicode.IsSpace (code CR) = true.
Proof. split; reflexivity. Qed.

Lemma parseLogText_CRLF (x y : gostring) :
  parseLogText (x ++ CR :: LF :: y) = parseLogText (x ++ LF :: y).
Proof.
  unfold parseLogText.
  change (x ++ CR :: LF :: y) with (x ++ [CR] ++ LF :: y).
  rewrite app_assoc, !Split_app.
  destruct (Split_snoc_other x CR LF eq_refl) as (ls & l & -> & ->).
  apply fold_parseLine_trim. rewrite !map_app. cbn [map].
  rewrite TrimSpace_snoc by apply CR_space. reflexivity.
Qed.

Lemma parseLogText_LFCR (x y : gostring) :
  parseLogText (x ++ LF :: CR :: y) = parseLogText (x ++ LF :: y).
Proof.
  unfold parseLogText. rewrite !Split_app.
  destruct (Split_cons_other CR y LF eq_refl) as (h & t & -> & ->).
  apply fold_parseLine_trim. rewrite !map_app. cbn [map].
  rewrite TrimSpace_cons by apply CR_space. reflexivity.
Qed.

Lemma parseLogText_one_line (s : gostring) :
  noNewline s -> strings.TrimSpace s <> [] ->
  parseLogText s = Some [classifyLine (strings.TrimSpace s)].
Proof.
  intros Hs Hne. unfold parseLogText. rewrite Split_none by exact Hs.
  cbn [fold_left]. unfold parseLine.
  destruct (strings.TrimSpace s); [congruence|]. reflexivity.
Qed.

(** ** The members of the object of an entry *)

Lemma members_raw (line : gostring) :
  line <> [] -> members (rawEntry line) = [(go "raw", line)].
Proof. intros Hne. destruct line; [congruence | reflexivity]. Qed.

Lemma members_structured (A B C : gostring) :
  C <> [] ->
  map fst (members (structured A B C))
  = optKey (go "timestamp") A ++ optKey (go "level") B ++ [go "message"].
Proof.
  intros Hne. destruct C; [congruence|]. destruct A, B; reflexivity.
Qed.

Lemma objectKeys_optKey (e : LogEntry) :
  json.objectKeys (LogEntry_fields e)
  = optKey (go "timestamp") (Timestamp e) ++ optKey (go "level") (Level e)
    ++ optKey (go "message") (Message e) ++ optKey (go "raw") (Raw e).
Proof.
  destruct e as [T L M R]. cbn [Timestamp Level Message Raw].
  destruct T, L, M, R; reflexivity.
Qed.

Lemma members_nonempty (e : LogEntry) :
  Forall (fun kv => snd kv <> []) (members e).
Proof.
  unfold members. apply List.Forall_forall. intros kv Hin.
  apply filter_In in Hin as [_ H]. destruct (snd kv); [discriminate|congruence].
Qed.

(** The entry of a trimmed line that is not empty: raw with the line as its
    only member, or structured with a message. *)
Lemma classify_trimmed (s : gostring) :
  strings.TrimSpace s <> [] ->
  let e := classifyLine (strings.TrimSpace s) in
  (e = rawEntry (strings.TrimSpace s)
   /\ members e = [(go "raw", strings.TrimSpace s)])
  \/ exists A B C,
      e = structured A B C /\ C <> []
      /\ map fst (members e)
         = optKey (go "timestamp") A ++ optKey (go "level") B ++ [go "message"].
Proof.
  intros Hne e. subst e.
  destruct (matchesb (strings.TrimSpace s)) eqn:Hb.
  - right. apply matchesb_true in Hb.
    destruct (find_match _ Hb) as (A & B & C & Hp & _).
    pose proof (classify_preferred _ _ _ _ Hp) as Hc.
    destruct Hp as (w1 & w2 & Hs & _).
    pose proof (trimmed_rest _ _ _ _ _ _ Hs) as HC.
    exists A, B, C. rewrite Hc. auto using members_structured.
  - left. apply matchesb_false in Hb. rewrite (classify_nomatch _ Hb).
    auto using members_raw.
Qed.

Lemma TrimSpace_middle_ne (u : gostring) (a : ascii) (v : gostring) :
  strings.TrimLeftFunc u unicode.IsSpace
  ++ a :: strings.TrimRightFunc v unicode.IsSpace <> [].
Proof. destruct (strings.TrimLeftFunc u unicode.IsSpace); discriminate. Qed.

Lemma noNewline_app (u v : gostring) :
  noNewline u -> noNewline v -> noNewline (u ++ CR :: v).
Proof.
  unfold noNewline. intros Hu Hv. rewrite forallb_app, Hu. simpl. exact Hv.
Qed.

(** A carriage return in a line of the shape is in one of its five parts. *)
Lemma shape_CR (line A w1 B w2 C : gostring) :
  shape line A w1 B w2 C -> In CR line -> In CR (A ++ w1 ++ B ++ w2 ++ C).
Proof.
  intros (-> & _) Hin.
  repeat (rewrite ?in_app_iff in *; simpl in * ).
  intuition discriminate.
Qed.

(** ** The readings without ambiguity, and the scenario of the specification *)

(** A line [[A] w1 [B] w2 C] whose bracketed groups hold no closing bracket
    and whose rest does not start with white space: the entry has exactly
    these groups. *)
Lemma classify_unambiguous (A w1 B w2 C : gostring) :
  noNewline A -> whitespace w1 -> noNewline B -> whitespace w2 ->
  noNewline C ->
  ~ In "]"%char A -> ~ In "]"%char B ->
  (forall c, head C = Some c -> regexp.perlSpace c = false) ->
  classifyLine ("["%char :: A ++ "]"%char :: w1
                ++ "["%char :: B ++ "]"%char :: w2 ++ C)
  = structured A B C.
Proof.
  intros HA Hw1 HB Hw2 HC HnA HnB Hh.
  apply classify_preferred.
  apply (preferred_simple _ A w1 B w2 C); auto.
  unfold shape. splits; auto.
Qed.

(** When the rest starts with white space, the greedy [\\s+] takes it: the
    message is the rest without it. *)
Example classify_leading_space :
  classifyLine (go "[a] [b]  c") = structured (go "a") (go "b") (go "c").
Proof. reflexivity. Qed.

(** The lazy groups stop at the first closing bracket that lets the rest of
    the pattern match. *)
Example classify_inner_bracket :
  classifyLine (go "[a] b] [c] [d] e")
  = structured (go "a] b") (go "c") (go "[d] e").
Proof. reflexivity. Qed.

Example classify_no_space :
  classifyLine (go "[a][b] c") = rawEntry (go "[a][b] c").
Proof. reflexivity. Qed.

(** The scenario of the specification: four lines, one of them blank, three
    entries. *)
Example scenario_entries :
  parseLogText
    (go "[2024-01-01T00:00:00Z] [INFO] server started"
     ++ LF :: go "plain text line" ++ LF :: LF :: go "[only-one-bracket]")
  = Some [ structured (go "2024-01-01T00:00:00Z") (go "INFO")
                      (go "server started");
           rawEntry (go "plain text line");
           rawEntry (go "[only-one-bracket]") ].
Proof. reflexivity. Qed.

(** Trimming takes the white space of Unicode (here U+00A0 and U+2028) and
    leaves bytes that are no valid UTF-8. *)
Example TrimSpace_unicode :
  strings.TrimSpace
    ([SP; chr 194; chr 160] ++ go "a" ++ [chr 255; chr 226; chr 128; chr 168; HT])
  = go "a" ++ [chr 255].
Proof. reflexivity. Qed.

(** A text without a line that is not blank leaves the slice nil. *)
Example blank_text_nil :
  parseLogText (SP :: LF :: CR :: LF :: [HT]) = None.
Proof. reflexivity. Qed.

(** * Further properties of the code *)

(** ** The handler over a run of requests *)

Lemma auditRecord_world (r : http.Request) (o : Outcomes) (w : World) :
  fst (bodyOutcome r o w) = auditRecord r o.
Proof.
  unfold auditRecord, bodyOutcome.
  destruct (ways_out Marshal r)
    as [Hm|[[Hm [err Hb]]|[[Hm (text & Hb & err & He)]
                          |[Hm (text & Hb & b & He)]]]].
  - rewrite !(body_rejected Marshal r o _ Hm). reflexivity.
  - rewrite !(body_unread Marshal r o _ err Hm Hb). reflexivity.
  - rewrite !(body_unencoded Marshal r o _ text err Hm Hb He). reflexivity.
  - rewrite !(body_encoded Marshal r o _ text b Hm Hb He). reflexivity.
Qed.

(** What one request does to the world: events are added, one of them a call
    of the database, and the table gets the record when the call works. *)
Lemma serveOne_effect (r : http.Request) (o : Outcomes) (w : World) :
  exists evs,
    events (snd (serveOne r o w)) = events w ++ evs
    /\ execs evs = [auditRecord r o]
    /\ delogged (snd (serveOne r o w))
       = inserted o (auditRecord r o) (delogged w).
Proof.
  rewrite <- (auditRecord_world r o w). unfold bodyOutcome, serveOne.
  destruct (ways_out Marshal r)
    as [Hm|[[Hm [err Hb]]|[[Hm (text & Hb & err & He)]
                          |[Hm (text & Hb & b & He)]]]].
  - rewrite (body_rejected Marshal r o w Hm),
      (serveOneWith_rejected Marshal r o w Hm).
    eexists. split; [reflexivity|]. split; [|reflexivity].
    rewrite execs_app, execs_insertLog. reflexivity.
  - rewrite (body_unread Marshal r o w err Hm Hb),
      (serveOneWith_unread Marshal r o w err Hm Hb).
    eexists. split; [reflexivity|]. split; [|reflexivity].
    rewrite execs_app, execs_insertLog. reflexivity.
  - rewrite (body_unencoded Marshal r o w text err Hm Hb He),
      (serveOneWith_unencoded Marshal r o w text err Hm Hb He).
    eexists. split; [reflexivity|]. split; [|reflexivity].
    rewrite execs_app, execs_insertLog. reflexivity.
  - rewrite (body_encoded Marshal r o w text b Hm Hb He),
      (serveOneWith_encoded Marshal r o w text b Hm Hb He).
    eexists. split; [reflexivity|]. split; [|reflexivity].
    rewrite !execs_app, execs_insertLog, execs_writeLog. reflexivity.
Qed.

Lemma serve_trail (reqs : list (http.Request * Outcomes)) : forall w,
  length (fst (serve reqs w)) = length reqs
  /\ execs (events (snd (serve reqs w)))
     = execs (events w) ++ map recordOf reqs
  /\ delogged (snd (serve reqs w))
     = delogged w ++ map recordOf (List.filter persisted reqs).
Proof.
  induction reqs as [|[r o] reqs IH]; intros w.
  - simpl. rewrite !app_nil_r. auto.
  - cbn [serve].
    destruct (serveOne_effect r o w) as (evs & Hev & Hex & Hrows).
    destruct (serveOne r o w) as [resp w1]. cbn [snd] in *.
    specialize (IH w1). destruct (serve reqs w1) as [resps w2].
    cbn [fst snd] in *. destruct IH as (Hlen & Hexs & Hdel).
    split; [simpl; congruence|]. split.
    + rewrite Hexs, Hev, execs_app, Hex, <- app_assoc. reflexivity.
    + rewrite Hdel, Hrows. unfold inserted, persisted. cbn [List.filter snd].
      destruct (execErr o); cbn [map]; rewrite <- ?app_assoc; reflexivity.
Qed.
(** ** Decoding a prefix, and the runes of a trimmed string *)

(** A rune decoded from a string is decoded from every prefix that holds
    its bytes. *)
Lemma decode_prefix (x y : gostring) (r : N) (size : nat) :
  x <> [] -> utf8.DecodeRuneInString (x ++ y) = (r, size) ->
  size <= length x ->
  utf8.DecodeRuneInString x = (r, size).
Proof.
  intros Hne.
  destruct x as [|c0 x]; [congruence|]. clear Hne.
  unfold utf8.DecodeRuneInString.
  cbn [app]. destruct (utf8.first (code c0)) as [| |sz lo hi]; try tauto.
  destruct x as [|c1 x]; cbn [app length].
  { destruct y as [|d1 y]; [tauto|].
    repeat match goal with
           | |- context [if ?b then _ else _] => destruct b
           | |- context [match ?l with [] => _ | _ :: _ => _ end] => destruct l
           end; intros [= <- <-]; intros; try reflexivity; lia. }
  destruct (negb (utf8.inRange lo hi (code c1))); [tauto|].
  destruct (sz <=? 2); [tauto|].
  destruct x as [|c2 x]; cbn [app length].
  { destruct y as [|d2 y]; [tauto|].
    repeat match goal with
           | |- context [if ?b then _ else _] => destruct b
           | |- context [match ?l with [] => _ | _ :: _ => _ end] => destruct l
           end; intros [= <- <-]; intros; try reflexivity; lia. }
  destruct (negb (utf8.isCont (code c2))); [tauto|].
  destruct (sz <=? 3); [tauto|].
  destruct x as [|c3 x]; cbn [app length]; [|tauto].
  destruct y as [|d3 y]; [tauto|].
  destruct (negb (utf8.isCont (code d3)));
    intros [= <- <-]; intros; try reflexivity; lia.
Qed.

Lemma runes_chunks (s : gostring) :
  Forall (fun rb => snd rb <> []) (utf8.runes s).
Proof.
  eapply List.Forall_impl; [|apply runes_runeBytes].
  intros rb [H _]. exact H.
Qed.

(** A run of runes at the start of a string is the runes of its bytes. *)
Lemma runes_prefix (y : gostring) (x : gostring) :
  forall K m, utf8.runes (x ++ y) = K ++ m -> utf8.bytes K = x ->
              utf8.runes x = K.
Proof.
  induction x as [|c s r size Hd Hsz IH] using runes_ind; intros K m HR HK.
  - destruct K as [|k K]; [reflexivity|]. exfalso.
    pose proof (runes_chunks ([] ++ y)) as Hall. rewrite HR in Hall.
    inversion Hall as [|? ? Hk _]; subst.
    unfold utf8.bytes in HK. cbn [map concat] in HK.
    apply app_eq_nil in HK as [HK _]. contradiction.
  - change ((c :: s) ++ y) with (c :: (s ++ y)) in HR.
    rewrite runes_cons in HR.
    destruct (utf8.DecodeRuneInString (c :: s ++ y)) as [r' size'] eqn:Hd'.
    destruct K as [|k K]; [discriminate|].
    cbn [app] in HR. injection HR as Hk HR. subst k.
    unfold utf8.bytes in HK. cbn [map concat snd] in HK.
    fold (utf8.bytes K) in HK.
    assert (Hsz' : 1 <= size' <= length (c :: s ++ y)).
    { pose proof (decode_size (c :: s ++ y) ltac:(discriminate)) as H.
      rewrite Hd' in H. exact H. }
    assert (Hle : size' <= length (c :: s)).
    { rewrite <- HK, length_app, length_take. lia. }
    change (c :: s ++ y) with ((c :: s) ++ y) in *.
    pose proof (decode_prefix (c :: s) y r' size' ltac:(discriminate) Hd' Hle)
      as Hdx.
    rewrite Hd in Hdx. injection Hdx as <- <-.
    rewrite take_app_le in HK by exact Hle.
    rewrite take_app_le by exact Hle.
    rewrite drop_app_le in HR by exact Hle.
    rewrite runes_cons, Hd. f_equal.
    apply (IH K m HR).
    rewrite <- (take_drop size (c :: s)) in HK at 2.
    apply app_inv_head in HK. exact HK.
Qed.

(** A run of runes at the end of a string is the runes of its bytes. *)
Lemma runes_suffix (P : list (N * gostring)) :
  forall s Q, utf8.runes s = P ++ Q -> utf8.runes (utf8.bytes Q) = Q.
Proof.
  induction P as [|p P IH]; intros s Q HR.
  - cbn [app] in HR. rewrite <- HR. rewrite bytes_runes. reflexivity.
  - destruct s as [|c s]; [discriminate|].
    rewrite runes_cons in HR.
    destruct (utf8.DecodeRuneInString (c :: s)) as [r size].
    injection HR as _ HR. exact (IH _ _ HR).
Qed.

Section Trim.
Context {A : Type} (f : A -> bool).

Lemma dropWhile_head (l : list A) (x : A) :
  head (strings.dropWhile f l) = Some x -> f x = false.
Proof.
  induction l as [|y l IH]; simpl; [discriminate|].
  destruct (f y) eqn:Hy; [exact IH|]. simpl. intros [= <-]. exact Hy.
Qed.

Lemma dropWhile_keep (l : list A) :
  (forall x, head l = Some x -> f x = false) -> strings.dropWhile f l = l.
Proof.
  destruct l as [|y l]; simpl; [reflexivity|].
  intros H. rewrite (H y eq_refl). reflexivity.
Qed.

Lemma dropWhileEnd_fixed (l : list A) :
  (forall x, last l = Some x -> f x = false) -> strings.dropWhileEnd f l = l.
Proof.
  induction l as [|y l IH]; simpl; [reflexivity|].
  intros H. destruct l as [|z l].
  - simpl. rewrite (H y eq_refl). reflexivity.
  - rewrite IH; [reflexivity|]. intros x Hx. apply H. exact Hx.
Qed.

Lemma dropWhileEnd_head (l : list A) :
  strings.dropWhileEnd f l <> [] -> head (strings.dropWhileEnd f l) = head l.
Proof.
  destruct l as [|y l]; simpl; [congruence|].
  destruct (strings.dropWhileEnd f l); [|reflexivity].
  destruct (f y); [congruence|reflexivity].
Qed.

(** The parts that the two passes leave out satisfy [f]. *)
Lemma dropWhile_parts (l : list A) :
  exists m, l = m ++ strings.dropWhile f l /\ forallb f m = true.
Proof.
  induction l as [|y l (m & IH & Hm)]; simpl; [exists []; auto|].
  destruct (f y) eqn:Hy.
  - exists (y :: m). simpl. rewrite Hy, Hm.
    split; [f_equal; exact IH | reflexivity].
  - exists []. auto.
Qed.

Lemma dropWhileEnd_parts (l : list A) :
  exists m, l = strings.dropWhileEnd f l ++ m /\ forallb f m = true.
Proof.
  induction l as [|y l (m & IH & Hm)]; simpl; [exists []; auto|].
  destruct (strings.dropWhileEnd f l) as [|z l'] eqn:Hl.
  - destruct (f y) eqn:Hy.
    + exists (y :: l). split; [reflexivity|]. simpl in IH. subst m.
      simpl. rewrite Hy. exact Hm.
    + exists m. simpl in *. split; congruence.
  - exists m. simpl in *. split; congruence.
Qed.

End Trim.

(** The runes of a trimmed string are the runes of the string without
    the white space at its two ends. *)
Lemma runes_TrimSpace (s : gostring) :
  utf8.runes (strings.TrimSpace s) = trimmedRunes s.
Proof.
  rewrite TrimSpace_runes. unfold trimmedRunes.
  set (D := strings.dropWhile spaceRune (utf8.runes s)).
  destruct (dropWhileEnd_prefix spaceRune D) as [m Hm].
  pose proof (dropWhile_runes spaceRune s) as HD. fold D in HD.
  rewrite Hm in HD at 1. rewrite bytes_app in HD.
  rewrite Hm in HD at 2.
  exact (runes_prefix _ _ _ _ HD eq_refl).
Qed.

Lemma trimmedRunes_head (s : gostring) (rb : N * gostring) :
  head (trimmedRunes s) = Some rb -> spaceRune rb = false.
Proof.
  unfold trimmedRunes. intros H.
  rewrite dropWhileEnd_head in H by (intros E; rewrite E in H; discriminate).
  exact (dropWhile_head _ _ _ H).
Qed.

Lemma trimmedRunes_last (s : gostring) (rb : N * gostring) :
  last (trimmedRunes s) = Some rb -> spaceRune rb = false.
Proof. apply dropWhileEnd_last. Qed.

(** A string whose first and last runes are not white space is left as it
    is. *)
Lemma TrimSpace_fixed (s : gostring) :
  (forall rb, head (utf8.runes s) = Some rb -> spaceRune rb = false) ->
  (forall rb, last (utf8.runes s) = Some rb -> spaceRune rb = false) ->
  strings.TrimSpace s = s.
Proof.
  intros Hh Hl. rewrite TrimSpace_runes.
  rewrite (dropWhile_keep _ _ Hh), (dropWhileEnd_fixed _ _ Hl).
  apply bytes_runes.
Qed.

Lemma TrimSpace_idem (s : gostring) :
  strings.TrimSpace (strings.TrimSpace s) = strings.TrimSpace s.
Proof.
  apply TrimSpace_fixed; rewrite runes_TrimSpace.
  - apply trimmedRunes_head.
  - apply trimmedRunes_last.
Qed.

(** A string is its trimmed part between two runs of white space. *)
Lemma TrimSpace_parts (s : gostring) :
  exists pre post,
    s = pre ++ strings.TrimSpace s ++ post /\ allSpace pre /\ allSpace post.
Proof.
  destruct (dropWhile_parts spaceRune (utf8.runes s)) as (P & HP & HPs).
  destruct (dropWhileEnd_parts spaceRune
              (strings.dropWhile spaceRune (utf8.runes s))) as (Q & HQ & HQs).
  exists (utf8.bytes P), (utf8.bytes Q).
  assert (Hs : utf8.runes s = P ++ trimmedRunes s ++ Q).
  { unfold trimmedRunes. rewrite <- HQ. exact HP. }
  split; [|split].
  - rewrite TrimSpace_runes. fold (trimmedRunes s).
    rewrite <- !bytes_app, <- Hs. symmetry. apply bytes_runes.
  - unfold allSpace.
    assert (HrP : utf8.runes (utf8.bytes P) = P).
    { apply (runes_prefix (utf8.bytes (trimmedRunes s ++ Q)) _ _
                          (trimmedRunes s ++ Q)); [|reflexivity].
      rewrite <- bytes_app, <- Hs, bytes_runes. reflexivity. }
    rewrite HrP. exact HPs.
  - unfold allSpace.
    rewrite (runes_suffix (P ++ trimmedRunes s) s Q)
      by (rewrite <- app_assoc; exact Hs).
    exact HQs.
Qed.
(** ** The preferred reading of a line and of its canonical form *)

Lemma noNewline_app_iff (u v : gostring) :
  noNewline (u ++ v) <-> noNewline u /\ noNewline v.
Proof. unfold noNewline. rewrite forallb_app, andb_true_iff. tauto. Qed.

Lemma noNewline_cons_iff (c : ascii) (u : gostring) :
  noNewline (c :: u) <-> regexp.anyCharNotNL c = true /\ noNewline u.
Proof. unfold noNewline. cbn [forallb]. rewrite andb_true_iff. tauto. Qed.

(** The message of the preferred reading does not start with a character
    of the class [\\s]: the white space before it is as long as can be. *)
Lemma preferred_head (line A B C : gostring) (c : ascii) :
  preferred line A B C -> head C = Some c -> regexp.perlSpace c = false.
Proof.
  intros (w1 & w2 & Hs & Hmin) Hc.
  destruct C as [|c' C]; [discriminate|]. injection Hc as ->.
  destruct (regexp.perlSpace c) eqn:Hp; [|reflexivity]. exfalso.
  destruct Hs as (Heq & HA & Hw1 & HB & [Hne Hw2] & HC).
  assert (Hs' : shape line A w1 B (w2 ++ [c]) C).
  { unfold shape. splits; try assumption.
    - rewrite Heq, <- app_assoc. reflexivity.
    - split; [destruct w2; discriminate|].
      rewrite forallb_app, Hw2. simpl. rewrite Hp. reflexivity.
    - apply noNewline_cons_iff in HC. tauto. }
  destruct (Hmin _ _ _ _ _ Hs') as [_ H]. destruct (H eq_refl) as [_ H'].
  specialize (H' eq_refl). rewrite length_app in H'. simpl in H'. lia.
Qed.

(** White space up to an opening bracket, read from a text in which a
    closing bracket comes first or later: the closing bracket comes
    later. *)
Lemma space_run_cut (u R d R' : gostring) :
  forallb regexp.perlSpace u = true ->
  u ++ "["%char :: R = d ++ "]"%char :: R' ->
  exists d', d = u ++ "["%char :: d' /\ R = d' ++ "]"%char :: R'.
Proof.
  revert d. induction u as [|a u IH]; intros d Hu Heq.
  - destruct d as [|x d]; simpl in *; [discriminate|].
    injection Heq as <- Heq. exists d. auto.
  - destruct d as [|x d]; simpl in *.
    + injection Heq as -> _. discriminate.
    + injection Heq as <- Heq. apply andb_prop in Hu as [_ Hu].
      destruct (IH d Hu Heq) as (d' & -> & ->). exists d'. auto.
Qed.

Lemma whitespace_SP : whitespace [SP].
Proof. split; [discriminate | reflexivity]. Qed.

(** The canonical form of a line without a newline is read as the line
    is. *)
Lemma preferred_canonical (line A B C : gostring) :
  noNewline line -> preferred line A B C ->
  preferred (canonical (structured A B C)) A B C.
Proof.
  intros Hnl Hp. pose proof (fun c => preferred_head _ _ _ _ c Hp) as Hhead.
  destruct Hp as (w1 & w2 & Hs & Hmin).
  destruct Hs as (Heq & HA & Hw1 & HB & Hw2 & HC).
  unfold canonical, structured. cbn [Raw Timestamp Level Message isEmpty].
  exists [SP], [SP]. split.
  { unfold shape. splits; try assumption; try apply whitespace_SP.
    reflexivity. }
  intros A' u B' v C' (Heq' & HA' & [Hune Hu] & HB' & [Hvne Hv] & HC').
  cbn in Heq'. injection Heq' as Heq'.
  (* the first group *)
  assert (HlenA : length A <= length A').
  { destruct (le_lt_dec (length A) (length A')) as [Hle|Hlt]; [exact Hle|].
    exfalso. symmetry in Heq'.
    destruct (app_cut A' _ A _ Heq') as (d & -> & Hd); [lia|].
    destruct d as [|x d]; [rewrite length_app in Hlt; simpl in Hlt; lia|].
    simpl in Hd. injection Hd as <- Hd.
    destruct (space_run_cut _ _ _ _ Hu Hd) as (d' & -> & _).
    assert (Hs' : shape line A' u d' w1
                        ("["%char :: B ++ "]"%char :: w2 ++ C)).
    { unfold shape. rewrite Heq in Hnl.
      splits; try assumption; try (split; assumption).
      - rewrite Heq, <- !app_assoc. simpl. rewrite <- !app_assoc. reflexivity.
      - clear - HA. newlines.
      - clear - Hnl. newlines. }
    destruct (Hmin _ _ _ _ _ Hs') as [H _].
    rewrite length_app in H. simpl in H. lia. }
  split; [exact HlenA|]. intros HeqA.
  apply app_cut_eq in Heq' as [<- Heq']; [|lia].
  injection Heq' as Heq'.
  pose proof (space_run_unique [SP] u
                (B ++ "]"%char :: SP :: C) _ eq_refl Hu Heq') as [<- Heq''].
  clear Heq'. rename Heq'' into Heq'.
  (* the second group *)
  assert (HlenB : length B <= length B').
  { destruct (le_lt_dec (length B) (length B')) as [Hle|Hlt]; [exact Hle|].
    exfalso. symmetry in Heq'.
    destruct (app_cut B' _ B _ Heq') as (d & -> & Hd); [lia|].
    destruct d as [|x d]; [rewrite length_app in Hlt; simpl in Hlt; lia|].
    simpl in Hd. injection Hd as <- Hd.
    destruct v as [|y v]; [congruence|].
    destruct d as [|x d]; simpl in Hd.
    { injection Hd as -> _. simpl in Hv. discriminate. }
    injection Hd as <- Hd. simpl in Hv. apply andb_prop in Hv as [Hy _].
    assert (Hs' : shape line A w1 B' [y]
                        (d ++ "]"%char :: w2 ++ C)).
    { unfold shape. rewrite Heq in Hnl. splits; try assumption.
      - rewrite Heq, <- !app_assoc. simpl. reflexivity.
      - split; [discriminate|]. simpl. rewrite Hy. reflexivity.
      - clear - Hnl. newlines. }
    destruct (Hmin _ _ _ _ _ Hs') as [_ H]. destruct (H eq_refl) as [H' _].
    rewrite length_app in H'. simpl in H'. lia. }
  split; [exact HlenB|]. intros HeqB.
  apply app_cut_eq in Heq' as [<- Heq']; [|lia].
  injection Heq' as Heq'.
  (* the white space before the message *)
  destruct v as [|y v]; [congruence|]. simpl in Heq'. injection Heq' as -> Heq'.
  destruct v as [|z v]; [simpl; lia|]. exfalso.
  simpl in Heq'. subst C. simpl in Hv.
  apply andb_prop in Hv as [_ Hv]. apply andb_prop in Hv as [Hz _].
  specialize (Hhead z eq_refl). congruence.
Qed.
(** ** What the loop appends *)

Lemma Split_noNewline (text : gostring) :
  Forall noNewline (strings.Split text LF).
Proof. exact (Split_segments text LF). Qed.

Lemma Split_length (text : gostring) :
  length (strings.Split text LF) = S (count_occ ascii_dec text LF).
Proof.
  induction text as [|c text IH]; [reflexivity|].
  cbn [strings.Split]. unfold beq.
  destruct (Ascii.eqb_spec c LF) as [->|Hne].
  - rewrite count_occ_cons_eq by reflexivity. simpl. rewrite IH. reflexivity.
  - rewrite count_occ_cons_neq by exact Hne.
    destruct (strings.Split text LF); simpl in *; [discriminate | exact IH].
Qed.

Lemma TrimSpace_noNewline (s : gostring) :
  noNewline s -> noNewline (strings.TrimSpace s).
Proof.
  intros H. destruct (TrimSpace_parts s) as (pre & post & Hs & _).
  rewrite Hs in H. clear Hs. newlines.
Qed.

Lemma last_app_cons {A} (l : list A) (x : A) (m : list A) :
  m <> [] -> last (l ++ x :: m) = last m.
Proof.
  intros Hne. rewrite last_app, last_cons.
  destruct (last m) eqn:Hm; [reflexivity|].
  apply last_None in Hm. contradiction.
Qed.

Lemma runes_ne (s : gostring) : s <> [] -> utf8.runes s <> [].
Proof.
  intros Hne HR. apply Hne. rewrite <- (bytes_runes s), HR. reflexivity.
Qed.

(** The runes of a string after an ASCII byte are the last runes of the
    whole. *)
Lemma runes_after_ascii (x : gostring) (a : ascii) (y : gostring) :
  (code a < 128)%N -> y <> [] ->
  last (utf8.runes (x ++ a :: y)) = last (utf8.runes y).
Proof.
  intros Ha Hy. rewrite runes_app by (apply isCont_ascii; exact Ha).
  rewrite runes_ascii by exact Ha.
  apply last_app_cons, runes_ne, Hy.
Qed.

(** The last rune of the message of a trimmed line is not white space. *)
Lemma message_last_rune (s A w1 B w2 C : gostring) (rb : N * gostring) :
  shape (strings.TrimSpace s) A w1 B w2 C ->
  last (utf8.runes C) = Some rb -> spaceRune rb = false.
Proof.
  intros Hs Hl. pose proof (trimmed_rest _ _ _ _ _ _ Hs) as HC.
  destruct Hs as (Heq & _ & _ & _ & [Hne Hw2] & _).
  destruct w2 as [|x w2 _] using rev_ind; [congruence|].
  rewrite forallb_app in Hw2. apply andb_prop in Hw2 as [_ Hx].
  simpl in Hx. rewrite andb_true_r in Hx.
  apply perlSpace_IsSpace in Hx as [Hx _].
  apply (trimmedRunes_last s). rewrite <- runes_TrimSpace, Heq, <- Hl.
  replace ("["%char :: A ++ "]"%char :: w1 ++ "["%char :: B
             ++ "]"%char :: (w2 ++ [x]) ++ C)
    with (("["%char :: A ++ "]"%char :: w1 ++ "["%char :: B
             ++ "]"%char :: w2) ++ x :: C).
  - apply runes_after_ascii; assumption.
  - simpl. repeat (rewrite <- ?app_assoc; simpl). reflexivity.
Qed.

(** The canonical form of a structured entry whose message does not end
    with white space is a trimmed line. *)
Lemma TrimSpace_canonical (A B C : gostring) :
  C <> [] ->
  (forall rb, last (utf8.runes C) = Some rb -> spaceRune rb = false) ->
  strings.TrimSpace (canonical (structured A B C)) = canonical (structured A B C).
Proof.
  intros HC Hl. apply TrimSpace_fixed.
  - unfold canonical. cbn [structured Raw Timestamp Level Message isEmpty].
    change (go "[" ++ A ++ go "] [" ++ B ++ go "] " ++ C)
      with ("["%char :: (A ++ go "] [" ++ B ++ go "] " ++ C)).
    rewrite runes_ascii by reflexivity. intros rb [= <-]. reflexivity.
  - unfold canonical. cbn [structured Raw Timestamp Level Message isEmpty].
    replace (go "[" ++ A ++ go "] [" ++ B ++ go "] " ++ C)
      with ((go "[" ++ A ++ go "] [" ++ B ++ go "]") ++ SP :: C)
      by (repeat (rewrite <- ?app_assoc; simpl); reflexivity).
    rewrite runes_after_ascii by (reflexivity || assumption). exact Hl.
Qed.

Lemma trimmedLines_loopLine (text : gostring) :
  Forall loopLine (trimmedLines text).
Proof.
  unfold trimmedLines. pose proof (Split_noNewline text) as Hall.
  induction Hall as [|s lines Hs _ IH]; simpl; [constructor|].
  destruct (strings.TrimSpace s) eqn:Ht; simpl; [exact IH|].
  constructor; [|exact IH]. rewrite <- Ht. unfold loopLine. splits.
  - rewrite Ht. discriminate.
  - apply TrimSpace_noNewline, Hs.
  - exists s. reflexivity.
Qed.

(** The entry of a line of the loop: raw or structured, with the parts the
    line has, and the parse of its canonical form. *)
Lemma classify_loopLine (l : gostring) :
  loopLine l ->
  let e := classifyLine l in
  (rawShaped e \/ structuredShaped e)
  /\ parseLogText (canonical e) = Some [e].
Proof.
  intros (Hne & Hnl & s & ->) e. subst e.
  destruct (matchesb (strings.TrimSpace s)) eqn:Hb.
  - apply matchesb_true in Hb.
    destruct (find_match _ Hb) as (A & B & C & Hp & _).
    rewrite (classify_preferred _ _ _ _ Hp).
    pose proof (fun c => preferred_head _ _ _ _ c Hp) as Hhead.
    pose proof (preferred_canonical _ _ _ _ Hnl Hp) as Hcan.
    destruct Hp as (w1 & w2 & Hs & _).
    pose proof (trimmed_rest _ _ _ _ _ _ Hs) as HC.
    pose proof (fun rb => message_last_rune _ _ _ _ _ _ rb Hs) as Hrune.
    assert (Hparts : noNewline A /\ noNewline B /\ noNewline C).
    { destruct Hs as (_ & HA & _ & HB & _ & HC'). auto. }
    destruct Hparts as (HA & HB & HC').
    split.
    + right. unfold structuredShaped, notAtEnds.
      cbn [structured Raw Timestamp Level Message].
      splits; try assumption; try reflexivity.
      intros c Hc. apply (TrimSpace_last s).
      destruct Hs as (Heq & _). rewrite Heq, <- Hc.
      replace ("["%char :: A ++ "]"%char :: w1 ++ "["%char :: B
                 ++ "]"%char :: w2 ++ C)
        with (("["%char :: A ++ "]"%char :: w1 ++ "["%char :: B) ++ "]"%char
                 :: (w2 ++ C))
        by (repeat (rewrite <- ?app_assoc; simpl); reflexivity).
      rewrite last_app_cons by (destruct w2; [exact HC | discriminate]).
      rewrite last_app. destruct (last C) eqn:HlC; [reflexivity|].
      apply last_None in HlC. contradiction.
    + rewrite parseLogText_one_line.
      * rewrite (TrimSpace_canonical A B C HC Hrune).
        rewrite (classify_preferred _ _ _ _ Hcan). reflexivity.
      * unfold canonical. cbn [structured Raw Timestamp Level Message isEmpty].
        clear - HA HB HC'. newlines.
      * rewrite (TrimSpace_canonical A B C HC Hrune).
        unfold canonical. cbn [structured Raw isEmpty]. discriminate.
  - apply matchesb_false in Hb. rewrite (classify_nomatch _ Hb).
    assert (Hcan : canonical (rawEntry (strings.TrimSpace s))
                   = strings.TrimSpace s).
    { unfold canonical. cbn [rawEntry Raw].
      destruct (strings.TrimSpace s); [congruence | reflexivity]. }
    split.
    + left. unfold rawShaped. cbn [rawEntry Raw].
      splits; try assumption; try reflexivity. apply TrimSpace_idem.
    + rewrite Hcan, parseLogText_one_line; rewrite ?TrimSpace_idem;
        try assumption.
      rewrite (classify_nomatch _ Hb). reflexivity.
Qed.

(** A line the loop classifies is a line of the text without the white
    space at its two ends. *)
Lemma trimmedLines_origin (text : gostring) :
  Forall (fun l => exists seg pre post,
              In seg (strings.Split text LF)
              /\ seg = pre ++ l ++ post /\ allSpace pre /\ allSpace post)
         (trimmedLines text).
Proof.
  unfold trimmedLines. apply List.Forall_forall. intros l Hin.
  apply filter_In in Hin as [Hin _]. apply in_map_iff in Hin as (seg & <- & Hin).
  destruct (TrimSpace_parts seg) as (pre & post & Hs & Hpre & Hpost).
  exists seg, pre, post. auto.
Qed.
(** ** The bytes the encoder writes *)

(** A rune that is decoded, and not the error of width 1, is decoded from
    every string that starts with its bytes. *)
Lemma decode_extend (x y : gostring) (r : N) (size : nat) :
  utf8.DecodeRuneInString x = (r, size) ->
  validRune (r, take size x) = true -> x <> [] ->
  utf8.DecodeRuneInString (x ++ y) = (r, size).
Proof.
  intros Hd Hv Hne.
  assert (Hok : (r, size) <> (utf8.RuneError, 1)).
  { intros [= -> ->]. unfold validRune in Hv. cbn [fst snd] in Hv.
    destruct x; [congruence|]. simpl in Hv. discriminate. }
  clear Hv. revert Hd.
  destruct x as [|c0 x]; [congruence|]. clear Hne.
  unfold utf8.DecodeRuneInString. cbn [app].
  destruct (utf8.first (code c0)) as [| |sz lo hi]; try tauto.
  destruct x as [|c1 x]; cbn [app]; [congruence|].
  destruct (negb (utf8.inRange lo hi (code c1))); [tauto|].
  destruct (sz <=? 2); [tauto|].
  destruct x as [|c2 x]; cbn [app]; [congruence|].
  destruct (negb (utf8.isCont (code c2))); [tauto|].
  destruct (sz <=? 3); [tauto|].
  destruct x as [|c3 x]; cbn [app]; [congruence|]. tauto.
Qed.

(** The bytes of a rune of two bytes or more are not ASCII. *)
Lemma decode_high (s : gostring) (r : N) (size : nat) :
  utf8.DecodeRuneInString s = (r, size) -> 2 <= size ->
  forallb (fun c => negb (asciiByte c)) (take size s) = true.
Proof.
  unfold utf8.DecodeRuneInString, asciiByte.
  destruct s as [|c0 s]; [intros [= <- <-]; lia|].
  destruct (utf8.first (code c0)) as [| |sz lo hi] eqn:Hf;
    try (intros [= <- <-]; lia).
  assert (H0 : (128 <= code c0)%N)
    by (apply first_not_As; rewrite Hf; discriminate).
  pose proof (first_Lead_range _ _ _ _ Hf) as [Hlo Hhi].
  assert (Hc : forall b, utf8.isCont b = true -> (128 <= b)%N).
  { intros b Hb. unfold utf8.isCont in Hb. apply andb_prop in Hb as [Hb _].
    apply N.leb_le in Hb. exact Hb. }
  assert (Hr : forall b, utf8.inRange lo hi b = true -> (128 <= b)%N).
  { intros b Hb. unfold utf8.inRange in Hb. apply andb_prop in Hb as [Hb _].
    apply N.leb_le in Hb. lia. }
  assert (Hn : forall b, (128 <= b)%N -> negb (b <? 128)%N = true).
  { intros b Hb. apply negb_true_iff, N.ltb_ge. exact Hb. }
  destruct s as [|c1 s]; [intros [= <- <-]; lia|].
  destruct (utf8.inRange lo hi (code c1)) eqn:H1; cbn [negb];
    [|intros [= <- <-]; lia].
  destruct (sz <=? 2).
  { intros [= <- <-] _. cbn [take forallb].
    rewrite !Hn by auto. reflexivity. }
  destruct s as [|c2 s]; [intros [= <- <-]; lia|].
  destruct (utf8.isCont (code c2)) eqn:H2; cbn [negb];
    [|intros [= <- <-]; lia].
  destruct (sz <=? 3).
  { intros [= <- <-] _. cbn [take forallb].
    rewrite !Hn by auto. reflexivity. }
  destruct s as [|c3 s]; [intros [= <- <-]; lia|].
  destruct (utf8.isCont (code c3)) eqn:H3; cbn [negb];
    [|intros [= <- <-]; lia].
  intros [= <- <-] _. cbn [take forallb].
  rewrite !Hn by auto. reflexivity.
Qed.

(** A byte that is not ASCII starts the error of width 1 or a rune of two
    bytes or more. *)
Lemma decode_nonascii (c0 : ascii) (s : gostring) (r : N) (size : nat) :
  asciiByte c0 = false ->
  utf8.DecodeRuneInString (c0 :: s) = (r, size) ->
  (r = utf8.RuneError /\ size = 1) \/ 2 <= size.
Proof.
  unfold asciiByte. intros H0. unfold utf8.DecodeRuneInString.
  assert (Hf : utf8.first (code c0) <> utf8.As).
  { unfold utf8.first. rewrite H0.
    repeat match goal with
           | |- context [if ?t then _ else _] => destruct t
           end; discriminate. }
  destruct (utf8.first (code c0)) as [| |sz lo hi]; [congruence| |].
  { intros [= <- <-]. auto. }
  repeat match goal with
         | |- context [if ?b then _ else _] => destruct b
         | |- context [match ?l with [] => _ | _ :: _ => _ end] => destruct l
         end; intros [= <- <-]; auto.
Qed.

Lemma runes_valid_app (x y : gostring) :
  ValidString x = true -> utf8.runes (x ++ y) = utf8.runes x ++ utf8.runes y.
Proof.
  unfold ValidString.
  induction x as [|c s r size Hd Hsz IH] using runes_ind; [reflexivity|].
  rewrite runes_cons, Hd. cbn [forallb]. intros H.
  apply andb_prop in H as [Hv Hrest].
  change ((c :: s) ++ y) with (c :: (s ++ y)). rewrite runes_cons.
  change (c :: (s ++ y)) with ((c :: s) ++ y).
  rewrite (decode_extend (c :: s) y r size Hd Hv) by discriminate.
  rewrite take_app_le, drop_app_le by lia.
  cbn [app]. f_equal. apply IH, Hrest.
Qed.

Lemma ValidString_app (x y : gostring) :
  ValidString x = true -> ValidString y = true -> ValidString (x ++ y) = true.
Proof.
  intros Hx Hy. unfold ValidString. rewrite runes_valid_app by exact Hx.
  rewrite forallb_app. unfold ValidString in *. rewrite Hx, Hy. reflexivity.
Qed.

Lemma ValidString_ascii (s : gostring) :
  forallb asciiByte s = true -> ValidString s = true.
Proof.
  unfold ValidString. induction s as [|c s IH]; [reflexivity|].
  cbn [forallb]. intros H. apply andb_prop in H as [Hc Hs].
  unfold asciiByte in Hc. apply N.ltb_lt in Hc.
  rewrite runes_ascii by exact Hc. cbn [forallb]. rewrite (IH Hs).
  unfold validRune. cbn [fst snd length]. rewrite andb_true_r.
  apply negb_true_iff, andb_false_iff. left.
  apply N.eqb_neq. unfold utf8.RuneError. lia.
Qed.

(** The bytes of one decoded rune are a valid string. *)
Lemma ValidString_rune (s : gostring) (r : N) (size : nat) :
  s <> [] -> utf8.DecodeRuneInString s = (r, size) ->
  (r =? utf8.RuneError)%N && (size =? 1) = false ->
  ValidString (take size s) = true.
Proof.
  intros Hne Hd Hok.
  pose proof (decode_size s Hne) as Hsz. rewrite Hd in Hsz. cbn [snd] in Hsz.
  assert (Hd' : utf8.DecodeRuneInString (take size s) = (r, size)).
  { apply (decode_prefix (take size s) (drop size s)).
    - destruct s; [congruence|]. destruct size; [lia|]. discriminate.
    - rewrite take_drop. exact Hd.
    - rewrite length_take. lia. }
  unfold ValidString.
  destruct (take size s) as [|c t] eqn:Ht.
  { reflexivity. }
  rewrite runes_cons, Hd'. rewrite <- Ht.
  assert (Hl : length (take size s) = size) by (rewrite length_take; lia).
  rewrite take_ge, drop_ge by lia. cbn [forallb utf8.runes].
  rewrite runes_nil. cbn [forallb]. rewrite andb_true_r.
  unfold validRune. cbn [fst snd]. rewrite Hl, Hok. reflexivity.
Qed.

(** What is true of the bytes of every escape, of every byte copied and of
    every rune copied is true of the bytes written. *)
Section Escape.
Variable good : gostring -> Prop.
Hypothesis good_nil : good [].
Hypothesis good_app : forall x y, good x -> good y -> good (x ++ y).
Hypothesis good_ascii : forall c, asciiByte c = true -> plainByte c = true ->
                                  good [c].
Hypothesis good_rune : forall s r size,
    s <> [] -> utf8.DecodeRuneInString s = (r, size) -> 2 <= size ->
    (r =? utf8.RuneError)%N && (size =? 1) = false ->
    good (take size s).

Lemma good_plain (s : gostring) :
  forallb (fun c => asciiByte c && plainByte c) s = true -> good s.
Proof.
  induction s as [|c s IH]; [intros; apply good_nil|].
  cbn [forallb]. intros H. apply andb_prop in H as [Hc Hs].
  apply andb_prop in Hc as [Ha Hp].
  change (c :: s) with ([c] ++ s). apply good_app; auto.
Qed.

Lemma hex_plain (n : N) :
  asciiByte (json.hex n) && plainByte (json.hex n) = true.
Proof.
  unfold json.hex.
  assert (H : forallb (fun c => asciiByte c && plainByte c)
                      (go "0123456789abcdef") = true) by reflexivity.
  rewrite forallb_forall in H.
  destruct (nth_in_or_default (N.to_nat n) (go "0123456789abcdef") "0"%char)
    as [Hin | ->]; [apply H, Hin | reflexivity].
Qed.

Lemma escapeByte_good (c : ascii) : good (json.escapeByte c).
Proof.
  apply good_plain. unfold json.escapeByte.
  repeat match goal with
         | |- context [if ?t then _ else _] => destruct t eqn:?
         end; cbn [forallb]; rewrite ?hex_plain; try reflexivity.
  apply orb_prop in Heqb as [H|H]; apply Ascii.eqb_eq in H; subst c;
    reflexivity.
Qed.

Lemma htmlSafe_plain (c : ascii) :
  json.htmlSafe c = true -> asciiByte c && plainByte c = true.
Proof.
  unfold json.htmlSafe, asciiByte, plainByte. intros H.
  repeat (apply andb_prop in H as [H ?]).
  repeat (apply andb_true_intro; split); assumption.
Qed.

Lemma take_take_le {A} (n m : nat) (l : list A) :
  n <= m -> take n (take m l) = take n l.
Proof. intros H. rewrite take_take. f_equal. lia. Qed.

Lemma escapeFuel_good (fuel : nat) :
  forall src, good (json.escapeFuel fuel src).
Proof.
  induction fuel as [|fuel IH]; intros src; [apply good_nil|].
  cbn [json.escapeFuel]. destruct src as [|b src]; [apply good_nil|].
  destruct (code b <? utf8.RuneSelf)%N eqn:Hb.
  - destruct (json.htmlSafe b) eqn:Hs.
    + change (b :: json.escapeFuel fuel src)
        with ([b] ++ json.escapeFuel fuel src).
      apply good_app; [|apply IH].
      apply htmlSafe_plain in Hs. apply andb_prop in Hs as [Ha Hp].
      apply good_ascii; assumption.
    + apply good_app; [apply escapeByte_good | apply IH].
  - destruct (utf8.DecodeRuneInString (take utf8.UTFMax (b :: src)))
      as [c size] eqn:Hd.
    destruct ((c =? utf8.RuneError)%N && (size =? 1)) eqn:Herr.
    { change (BACKSLASH :: go "ufffd" ++ json.escapeFuel fuel (drop size (b :: src)))
        with ((BACKSLASH :: go "ufffd")
                ++ json.escapeFuel fuel (drop size (b :: src))).
      apply good_app; [|apply IH]. apply good_plain. reflexivity. }
    destruct ((c =? 8232)%N || (c =? 8233)%N) eqn:Hls.
    { change (BACKSLASH :: go "u202" ++ json.hex (N.land c 15)
                        :: json.escapeFuel fuel (drop size (b :: src)))
        with ((BACKSLASH :: go "u202" ++ [json.hex (N.land c 15)])
                ++ json.escapeFuel fuel (drop size (b :: src))).
      apply good_app; [|apply IH]. apply good_plain.
      cbn [forallb app go list_ascii_of_string]. rewrite hex_plain. reflexivity. }
    apply good_app; [|apply IH].
    assert (Hne : take utf8.UTFMax (b :: src) <> [])
      by (unfold utf8.UTFMax; discriminate).
    pose proof (decode_size _ Hne) as Hsz. rewrite Hd in Hsz. cbn [snd] in Hsz.
    rewrite length_take in Hsz.
    assert (H4 : size <= utf8.UTFMax) by lia.
    rewrite <- (take_take_le size utf8.UTFMax (b :: src) H4).
    apply (good_rune _ c); try assumption.
    destruct (decode_nonascii b (take 3 src) c size Hb Hd) as [[-> ->]|H2];
      [discriminate | exact H2].
Qed.

Lemma appendString_good (src : gostring) : good (json.appendString src).
Proof.
  unfold json.appendString.
  change (DQUOTE :: json.escapeFuel (length src) src ++ [DQUOTE])
    with ([DQUOTE] ++ json.escapeFuel (length src) src ++ [DQUOTE]).
  repeat apply good_app; try apply escapeFuel_good;
    apply good_plain; reflexivity.
Qed.

Lemma join_good (sep : gostring) (parts : list gostring) :
  good sep -> Forall good parts -> good (json.join sep parts).
Proof.
  intros Hsep Hall. induction Hall as [|p ps Hp _ IH]; [apply good_nil|].
  cbn [json.join]. destruct ps as [|q ps]; [exact Hp|].
  apply good_app; [exact Hp|]. apply good_app; [exact Hsep | exact IH].
Qed.

Lemma objectText_good (kvs : list (gostring * gostring)) :
  Forall (fun kv => good (fst kv)) kvs -> good (objectText kvs).
Proof.
  intros Hk. unfold objectText.
  apply good_app; [apply good_plain; reflexivity|].
  apply good_app; [|apply good_plain; reflexivity].
  apply join_good; [apply good_plain; reflexivity|].
  apply List.Forall_map. eapply List.Forall_impl; [|exact Hk].
  intros kv Hkv. unfold memberText.
  change (DQUOTE :: fst kv ++ [DQUOTE; ":"%char] ++ json.appendString (snd kv))
    with ([DQUOTE] ++ fst kv ++ [DQUOTE; ":"%char]
            ++ json.appendString (snd kv)).
  repeat apply good_app; try apply appendString_good; try assumption;
    apply good_plain; reflexivity.
Qed.

Lemma entryText_good (e : LogEntry) : good (entryText e).
Proof.
  rewrite entryText_members. apply objectText_good.
  unfold members. apply List.Forall_forall. intros kv Hin.
  apply filter_In in Hin as [Hin _]. apply good_plain.
  cbn [In] in Hin.
  destruct Hin as [<-|[<-|[<-|[<-|[]]]]]; reflexivity.
Qed.

Lemma encodeSlice_good (v : slice LogEntry) :
  good (json.encodeSlice entryText v).
Proof.
  destruct v as [l|]; cbn [json.encodeSlice]; [|apply good_plain; reflexivity].
  apply good_app; [apply good_plain; reflexivity|].
  apply good_app; [|apply good_plain; reflexivity].
  apply join_good; [apply good_plain; reflexivity|].
  apply List.Forall_map, List.Forall_forall. intros e _. apply entryText_good.
Qed.

End Escape.

Lemma nonascii_plain (c : ascii) : asciiByte c = false -> plainByte c = true.
Proof.
  destruct c as [[] [] [] [] [] [] [] []]; intros H;
    first [reflexivity | discriminate H].
Qed.

Lemma forallb_impl_in {A} (p q : A -> bool) (l : list A) :
  (forall x, p x = true -> q x = true) ->
  forallb p l = true -> forallb q l = true.
Proof.
  intros Hpq. rewrite !forallb_forall. auto.
Qed.

(** * The claims *)

(** ** The line classifier *)

(** C3: a line that matches the pattern (a bracketed group, white space, a
    second bracketed group, white space, the rest of the line) has exactly
    one preferred reading [A], [B], [C] (the two bracketed groups as short
    as can be, the white space before the rest as long as can be), and its
    entry is the structured one with timestamp [A], level [B], message [C]
    and no raw field.  Nothing asks [B] to be non-empty. *)
Theorem C3_structured_entry (line : gostring) :
  matchesPattern line ->
  exists A B C,
    preferred line A B C
    /\ (forall A' B' C',
           preferred line A' B' C' -> A' = A /\ B' = B /\ C' = C)
    /\ classifyLine line
       = {| Timestamp := A; Level := B; Message := C; Raw := [] |}.
Proof.
  intros Hm. destruct (find_match line Hm) as (A & B & C & Hp & _).
  exists A, B, C. split; [exact Hp|]. split.
  - intros A' B' C' Hp'.
    destruct (preferred_unique _ _ _ _ _ _ _ Hp' Hp) as (-> & -> & ->). auto.
  - apply (classify_preferred line A B C Hp).
Qed.

(** C3 at the line with an empty level, [[T] [] M]. *)
Lemma C3_witness :
  matchesPattern (go "[T] [] M")
  /\ exists A B C,
      preferred (go "[T] [] M") A B C
      /\ (forall A' B' C',
             preferred (go "[T] [] M") A' B' C' -> A' = A /\ B' = B /\ C' = C)
      /\ classifyLine (go "[T] [] M")
         = {| Timestamp := A; Level := B; Message := C; Raw := [] |}.
Proof.
  assert (Hm : matchesPattern (go "[T] [] M")).
  { exists (go "T"), (go " "), [], (go " "), (go "M").
    unfold shape, noNewline, whitespace.
    repeat split; try reflexivity; discriminate. }
  split; [exact Hm | exact (C3_structured_entry (go "[T] [] M") Hm)].
Defined.

(** The entry of [[T] [] M]: the level is empty. *)
Example classify_empty_level :
  classifyLine (go "[T] [] M") = structured (go "T") [] (go "M").
Proof. reflexivity. Qed.

(** C4: a line that does not match the pattern gets the raw entry, whose
    raw field is the line and whose other fields are empty; and every line
    gets either that entry or the structured entry of its preferred
    reading, never a mix.  Lines that do not match: those that do not start
    with an opening bracket, those with fewer than two closing brackets,
    and, among trimmed lines, those where nothing follows the second
    group. *)
Theorem C4_raw_entry (line : gostring) :
  (~ matchesPattern line ->
   classifyLine line
   = {| Timestamp := []; Level := []; Message := []; Raw := line |})
  /\ ((~ matchesPattern line /\ classifyLine line = rawEntry line)
      \/ exists A B C,
          preferred line A B C /\ classifyLine line = structured A B C)
  /\ (head line <> Some "["%char -> ~ matchesPattern line)
  /\ (count_occ ascii_dec line "]"%char < 2 -> ~ matchesPattern line)
  /\ (forall s A w1 B w2 C,
         line = strings.TrimSpace s -> shape line A w1 B w2 C -> C <> []).
Proof.
  split; [apply classify_nomatch|]. split.
  - destruct (matchesb line) eqn:Hb.
    + right. apply matchesb_true in Hb.
      destruct (find_match line Hb) as (A & B & C & Hp & _).
      exists A, B, C. split; [exact Hp | apply classify_preferred, Hp].
    + left. apply matchesb_false in Hb.
      split; [exact Hb | apply classify_nomatch, Hb].
  - split; [apply nomatch_head|]. split; [apply nomatch_one_group|].
    intros s A w1 B w2 C ->. apply trimmed_rest.
Qed.

(** C4 at the line [[only-one-bracket]]. *)
Lemma C4_witness :
  ~ matchesPattern (go "[only-one-bracket]")
  /\ classifyLine (go "[only-one-bracket]")
     = {| Timestamp := []; Level := []; Message := [];
          Raw := go "[only-one-bracket]" |}.
Proof.
  assert (Hn : ~ matchesPattern (go "[only-one-bracket]")).
  { apply (proj1 (proj2 (proj2 (proj2 (C4_raw_entry (go "[only-one-bracket]")))))).
    vm_compute. lia. }
  split; [exact Hn|].
  apply (proj1 (C4_raw_entry (go "[only-one-bracket]")) Hn).
Defined.

(** ** The pipeline *)


(** ** The handler *)

(** C1: whatever the way out of the handler (rejected method, failed read
    of the body, failed encoding, served text), the events of a request
    hold exactly one call of the database, made with the record as the body
    of the handler left it; the response is the one the body produced, and
    it is the same whether that call fails or not.  The encoder is any
    function, [json.Marshal] (which does not fail) or one that fails. *)
Theorem C1_persisted_once (marshal : slice LogEntry -> result gostring)
        (r : http.Request) (o : Outcomes) (w : World) :
  let '(record, produced) := bodyOutcomeWith marshal r o w in
  let '(resp, w') := serveOneWith marshal r o w in
  (exists evs, events w' = events w ++ evs /\ execs evs = [record])
  /\ (record = rejectedRecord r o \/ record = unreadRecord r o
      \/ (exists text, record = unencodedRecord r o text)
      \/ exists text b, record = encodedRecord r o text b)
  /\ resp = produced
  /\ forall e : option gostring,
      fst (serveOneWith marshal r (mkOutcomes (now o) e (writeErr o)) w)
      = produced.
Proof.
  destruct (ways_out marshal r)
    as [Hm|[[Hm [err Hb]]|[[Hm (text & Hb & err & He)]
                          |[Hm (text & Hb & b & He)]]]].
  - rewrite (body_rejected marshal r o w Hm),
      (serveOneWith_rejected marshal r o w Hm).
    splits; [|auto|reflexivity|].
    + eexists. split; [reflexivity|].
      rewrite execs_app, execs_insertLog. reflexivity.
    + intros e. rewrite serveOneWith_rejected by exact Hm. reflexivity.
  - rewrite (body_unread marshal r o w err Hm Hb),
      (serveOneWith_unread marshal r o w err Hm Hb).
    splits; [|auto|reflexivity|].
    + eexists. split; [reflexivity|].
      rewrite execs_app, execs_insertLog. reflexivity.
    + intros e. rewrite (serveOneWith_unread _ _ _ _ err) by assumption.
      reflexivity.
  - rewrite (body_unencoded marshal r o w text err Hm Hb He),
      (serveOneWith_unencoded marshal r o w text err Hm Hb He).
    splits; [|eauto|reflexivity|].
    + eexists. split; [reflexivity|].
      rewrite execs_app, execs_insertLog. reflexivity.
    + intros e. rewrite (serveOneWith_unencoded _ _ _ _ text err) by assumption.
      reflexivity.
  - rewrite (body_encoded marshal r o w text b Hm Hb He),
      (serveOneWith_encoded marshal r o w text b Hm Hb He).
    splits; [|eauto 6|reflexivity|].
    + eexists. split; [reflexivity|].
      rewrite !execs_app, execs_insertLog, execs_writeLog. reflexivity.
    + intros e. rewrite (serveOneWith_encoded _ _ _ _ text b) by assumption.
      reflexivity.
Qed.

(** C6: a request whose method is not POST gets the status 405; between the
    log line of its arrival and the call of the database there is only the
    log line of the rejection (the body is not read), and the record of
    that call has the status 405, an error message, and empty request and
    response bodies. *)
Theorem C6_method_not_allowed (r : http.Request) (o : Outcomes) (w : World) :
  http.Method r <> http.MethodPost ->
  let '(resp, w') := serveOne r o w in
  respStatus resp = 405
  /\ respBody resp = go "Method not allowed" ++ [LF]
  /\ exists record,
      events w'
      = events w
        ++ [EvLog (LogReceived (http.ReqRemoteAddr r) (http.Method r)
                               (http.URLPath r));
            EvLog (LogRejected (http.ReqRemoteAddr r) (http.Method r));
            EvExec record]
        ++ insertLog o
      /\ ~ In EvReadAll (skipn (length (events w)) (events w'))
      /\ StatusCode record = 405
      /\ ErrorMsg record <> []
      /\ RequestBody record = []
      /\ len (ResponseBody record) = 0.
Proof.
  intros Hm. rewrite (serveOne_rejected r o w Hm).
  split; [reflexivity|]. split; [reflexivity|].
  exists (rejectedRecord r o). split; [reflexivity|].
  split; [|repeat split; discriminate].
  cbn [events]. rewrite drop_app_length. unfold insertLog.
  destruct (execErr o); simpl; intuition discriminate.
Qed.

(** C6 at a GET request. *)
Lemma C6_witness :
  let r := http.mkRequest (go "GET") (go "/api/parse") (go "10.0.0.1:5000")
                          (Ok (go "x")) in
  http.Method r <> http.MethodPost
  /\ respStatus (fst (serveOne r (mkOutcomes 0 None None) (mkWorld [] []))) = 405.
Proof.
  intros r.
  assert (Hm : http.Method r <> http.MethodPost) by discriminate.
  split; [exact Hm|].
  pose proof (C6_method_not_allowed r (mkOutcomes 0 None None) (mkWorld [] []) Hm) as H.
  destruct (serveOne r (mkOutcomes 0 None None) (mkWorld [] [])) as [resp w'].
  exact (proj1 H).
Defined.

(** C2 (as the code behaves): a POST with an empty body is answered with
    the status 200 and the body [null]: no entry was appended, the slice is
    nil, and a nil slice is encoded as [null], not as [[]].  The record has
    the status 200 and no error message. *)
Theorem C2_empty_body_null (path addr : gostring) (o : Outcomes) (w : World) :
  let r := http.mkRequest http.MethodPost path addr (Ok []) in
  let '(resp, w') := serveOne r o w in
  respStatus resp = 200
  /\ respBody resp = go "null"
  /\ respBody resp <> go "[]"
  /\ exists record,
      execs (events w') = execs (events w) ++ [record]
      /\ StatusCode record = 200 /\ ErrorMsg record = []
      /\ ResponseBody record = Some (go "null").
Proof.
  intros r. rewrite (serveOne_served r o w [] eq_refl eq_refl).
  split; [reflexivity|]. split; [reflexivity|]. split; [discriminate|].
  exists (servedRecord r o []). cbn [events].
  split; [|repeat split; reflexivity].
  rewrite !execs_app, execs_insertLog, execs_writeLog, app_nil_r.
  reflexivity.
Qed.

(** C7 (as the code behaves): when the text of a POST has a line that is
    not blank, the response has the status 200, the headers [Content-Type:
    application/json] and [Access-Control-Allow-Origin: *], and as its body
    the JSON array of the objects of the entries; the object of a raw entry
    has the one key [raw]; the object of a structured entry has the key
    [message], preceded by [timestamp] and [level] when the group is not
    empty; the record handed to the database has these bytes as its
    response body. *)
Theorem C7_success_response (r : http.Request) (o : Outcomes) (w : World)
        (text : gostring) :
  http.Method r = http.MethodPost -> http.Body r = Ok text ->
  trimmedLines text <> [] ->
  let '(resp, w') := serveOne r o w in
  let entries := map classifyLine (trimmedLines text) in
  respStatus resp = 200
  /\ respHeader resp !! go "Content-Type" = Some [go "application/json"]
  /\ respHeader resp !! go "Access-Control-Allow-Origin" = Some [go "*"]
  /\ respBody resp = arrayText (map (fun e => objectText (members e)) entries)
  /\ Forall (fun e =>
               (exists line, e = rawEntry line
                             /\ members e = [(go "raw", line)])
               \/ exists A B C,
                   e = structured A B C /\ C <> []
                   /\ map fst (members e)
                      = optKey (go "timestamp") A ++ optKey (go "level") B
                        ++ [go "message"])
            entries
  /\ exists record,
      execs (events w') = execs (events w) ++ [record]
      /\ ResponseBody record = Some (respBody resp).
Proof.
  intros Hm Hb Hne. rewrite (serveOne_served r o w text Hm Hb).
  cbn [respStatus respHeader respBody events].
  split; [reflexivity|]. split; [reflexivity|]. split; [reflexivity|].
  split; [apply encodeSlice_entries, Hne|]. split.
  - apply List.Forall_map. eapply List.Forall_impl; [|apply trimmedLines_spec].
    intros l [Hl [s ->]]. cbn beta.
    destruct (classify_trimmed s Hl) as [[He Hmem]|H]; [left|right; exact H].
    exists (strings.TrimSpace s). auto.
  - exists (servedRecord r o text). split; [|reflexivity].
    rewrite !execs_app, execs_insertLog, execs_writeLog, app_nil_r.
    reflexivity.
Qed.

(** C7 at the text of the specification's scenario, cut to two lines. *)
Lemma C7_witness :
  let text := go "[2024-01-01T00:00:00Z] [INFO] server started"
              ++ LF :: go "plain text line" in
  let r := http.mkRequest http.MethodPost (go "/api/parse")
                          (go "10.0.0.1:5000") (Ok text) in
  (http.Method r = http.MethodPost /\ http.Body r = Ok text
   /\ trimmedLines text <> [])
  /\ respStatus (fst (serveOne r (mkOutcomes 0 None None) (mkWorld [] []))) = 200.
Proof.
  intros text r.
  assert (Hne : trimmedLines text <> []) by (vm_compute; discriminate).
  split; [split; [reflexivity | split; [reflexivity | exact Hne]]|].
  pose proof (C7_success_response r (mkOutcomes 0 None None) (mkWorld [] [])
                                  text eq_refl eq_refl Hne) as H.
  destruct (serveOne r (mkOutcomes 0 None None) (mkWorld [] [])) as [resp w'].
  exact (proj1 H).
Defined.

(** C7 as stated fails: the text [[T] [] M] is served with a structured
    entry whose object has the keys [timestamp] and [message] and no key
    [level]. *)
Lemma C7_counterexample :
  let text := go "[T] [] M" in
  let r := http.mkRequest http.MethodPost (go "/api/parse")
                          (go "10.0.0.1:5000") (Ok text) in
  let resp := fst (serveOne r (mkOutcomes 0 None None) (mkWorld [] [])) in
  respStatus resp = 200
  /\ elems (parseLogText text) = [structured (go "T") [] (go "M")]
  /\ respBody resp
     = go "[{" ++ quoted "timestamp" ++ go ":" ++ quoted "T" ++ go ","
          ++ quoted "message" ++ go ":" ++ quoted "M" ++ go "}]"
  /\ ~ In (go "level")
          (json.objectKeys (LogEntry_fields (structured (go "T") [] (go "M")))).
Proof.
  vm_compute. repeat split; try reflexivity. intuition discriminate.
Qed.

(** C9: the keys of the object of an entry are those of its fields that are
    not empty, in the order timestamp, level, message, raw; the text of the
    object has these members and no other; the entry of [[T] [] M] is
    written with the keys [timestamp] and [message] only. *)
Theorem C9_omitempty (e : LogEntry) :
  json.objectKeys (LogEntry_fields e)
  = optKey (go "timestamp") (Timestamp e) ++ optKey (go "level") (Level e)
    ++ optKey (go "message") (Message e) ++ optKey (go "raw") (Raw e)
  /\ json.encodeStruct (LogEntry_fields e) = objectText (members e)
  /\ map fst (members e) = json.objectKeys (LogEntry_fields e)
  /\ Forall (fun kv => snd kv <> []) (members e)
  /\ (let e0 := classifyLine (go "[T] [] M") in
      e0 = {| Timestamp := go "T"; Level := []; Message := go "M"; Raw := [] |}
      /\ json.objectKeys (LogEntry_fields e0) = [go "timestamp"; go "message"]
      /\ json.encodeStruct (LogEntry_fields e0)
         = go "{" ++ quoted "timestamp" ++ go ":" ++ quoted "T" ++ go ","
              ++ quoted "message" ++ go ":" ++ quoted "M" ++ go "}").
Proof.
  split; [apply objectKeys_optKey|].
  split; [apply entryText_members|].
  split; [symmetry; apply objectKeys_members|].
  split; [apply members_nonempty|].
  vm_compute. repeat split; reflexivity.
Qed.

(** C8: the entries of a text depend on the text alone: whatever requests
    were served before, in whatever world, two POST requests with the same
    text get the same body, the encoding of the entries of that text. *)
Theorem C8_deterministic (h1 h2 : list (http.Request * Outcomes))
        (w1 w2 : World) (r1 r2 : http.Request) (o1 o2 : Outcomes)
        (text : gostring) :
  http.Method r1 = http.MethodPost -> http.Body r1 = Ok text ->
  http.Method r2 = http.MethodPost -> http.Body r2 = Ok text ->
  let resp1 := fst (serveOne r1 o1 (snd (serve h1 w1))) in
  let resp2 := fst (serveOne r2 o2 (snd (serve h2 w2))) in
  resp1 = resp2
  /\ respBody resp1 = json.encodeSlice entryText (parseLogText text)
  /\ exists record1 record2,
      In (EvExec record1) (events (snd (serveOne r1 o1 (snd (serve h1 w1)))))
      /\ In (EvExec record2) (events (snd (serveOne r2 o2 (snd (serve h2 w2)))))
      /\ ResponseBody record1 = ResponseBody record2.
Proof.
  intros Hm1 Hb1 Hm2 Hb2 resp1 resp2. subst resp1 resp2.
  rewrite (serveOne_served r1 o1 _ text Hm1 Hb1).
  rewrite (serveOne_served r2 o2 _ text Hm2 Hb2).
  split; [reflexivity|]. split; [reflexivity|].
  exists (servedRecord r1 o1 text), (servedRecord r2 o2 text).
  cbn [snd events]. rewrite !in_app_iff. simpl. tauto.
Qed.

(** C8 at two requests with the same text, the second after another
    request and with a failing database. *)
Lemma C8_witness :
  let text := go "[a] [b] c" ++ LF :: go "d" in
  let r1 := http.mkRequest http.MethodPost (go "/api/parse")
                           (go "10.0.0.1:5000") (Ok text) in
  let r2 := http.mkRequest http.MethodPost (go "/api/parse")
                           (go "10.0.0.2:6000") (Ok text) in
  let other := http.mkRequest (go "GET") (go "/api/parse")
                              (go "10.0.0.3:7000") (Ok (go "x")) in
  let o1 := mkOutcomes 1 None None in
  let o2 := mkOutcomes 2 (Some (go "timeout")) None in
  (http.Method r1 = http.MethodPost /\ http.Body r1 = Ok text
   /\ http.Method r2 = http.MethodPost /\ http.Body r2 = Ok text)
  /\ fst (serveOne r1 o1 (snd (serve [] (mkWorld [] []))))
     = fst (serveOne r2 o2 (snd (serve [(other, o1)] (mkWorld [] [])))).
Proof.
  intros text r1 r2 other o1 o2.
  split; [repeat split; reflexivity|].
  exact (proj1 (C8_deterministic [] [(other, o1)] (mkWorld [] []) (mkWorld [] [])
                                 r1 r2 o1 o2 text
                                 eq_refl eq_refl eq_refl eq_refl)).
Defined.

(** C10 (as the code behaves): the text is cut at newlines only.  A
    carriage return next to a newline, before or after it, goes with the
    trimming of its line.  A carriage return between two pieces of text that
    both have a character other than white space, and no newline, does not
    cut the line: the text is one line, the trimmed line keeps the carriage
    return, and one entry is made of it; the raw entry of a line that does
    not match holds it, and in a line that matches it lies in one of the
    three groups or in the white space after a bracketed group, which the
    pattern takes as a separator. *)
Theorem C10_carriage_return (x y u v : gostring) :
  noNewline u -> noNewline v -> hasNonSpace u -> hasNonSpace v ->
  parseLogText (x ++ CR :: LF :: y) = parseLogText (x ++ LF :: y)
  /\ parseLogText (x ++ LF :: CR :: y) = parseLogText (x ++ LF :: y)
  /\ strings.Split (u ++ CR :: v) LF = [u ++ CR :: v]
  /\ let line := strings.TrimLeftFunc u unicode.IsSpace
                 ++ CR :: strings.TrimRightFunc v unicode.IsSpace in
     strings.TrimSpace (u ++ CR :: v) = line
     /\ parseLogText (u ++ CR :: v) = Some [classifyLine line]
     /\ (~ matchesPattern line -> Raw (classifyLine line) = line)
     /\ (matchesPattern line ->
         exists A w1 B w2 C,
           shape line A w1 B w2 C
           /\ classifyLine line = structured A B C
           /\ In CR (A ++ w1 ++ B ++ w2 ++ C)).
Proof.
  intros Hu Hv Hnu Hnv.
  split; [apply parseLogText_CRLF|]. split; [apply parseLogText_LFCR|].
  pose proof (noNewline_app u v Hu Hv) as Hline.
  split; [apply Split_none, Hline|].
  pose proof (TrimSpace_middle u CR v eq_refl Hnu Hnv) as Ht.
  cbn zeta. split; [exact Ht|]. split.
  - rewrite <- Ht. apply parseLogText_one_line; [exact Hline|].
    rewrite Ht. apply TrimSpace_middle_ne.
  - split.
    + intros Hn. rewrite (classify_nomatch _ Hn). reflexivity.
    + intros Hm. destruct (find_match _ Hm) as (A & B & C & Hp & _).
      pose proof (classify_preferred _ _ _ _ Hp) as Hc.
      destruct Hp as (w1 & w2 & Hs & _).
      exists A, w1, B, w2, C. split; [exact Hs|]. split; [exact Hc|].
      apply (shape_CR _ _ _ _ _ _ Hs).
      apply in_or_app. right. left. reflexivity.
Qed.

(** C10 at [ab], a carriage return, [cd]. *)
Lemma C10_witness :
  (noNewline (go "ab") /\ noNewline (go "cd")
   /\ hasNonSpace (go "ab") /\ hasNonSpace (go "cd"))
  /\ parseLogText (go "ab" ++ CR :: go "cd")
     = Some [classifyLine
               (strings.TrimLeftFunc (go "ab") unicode.IsSpace
                ++ CR :: strings.TrimRightFunc (go "cd") unicode.IsSpace)].
Proof.
  assert (H1 : noNewline (go "ab")) by reflexivity.
  assert (H2 : noNewline (go "cd")) by reflexivity.
  assert (H3 : hasNonSpace (go "ab")) by reflexivity.
  assert (H4 : hasNonSpace (go "cd")) by reflexivity.
  split; [auto|].
  exact (proj1 (proj2 (proj2 (proj2 (proj2
           (C10_carriage_return [] [] (go "ab") (go "cd") H1 H2 H3 H4)))))).
Defined.

(** C10 as stated fails: in [[a]], a carriage return, [[b] c] the carriage
    return has a character other than white space on both sides; the text is
    one line and one entry, and the carriage return is in none of the
    fields of the entry. *)
Lemma C10_counterexample :
  let text := go "[a]" ++ CR :: go "[b] c" in
  unicode.IsSpace (code "]") = false /\ unicode.IsSpace (code "[") = false
  /\ parseLogText text
     = Some [{| Timestamp := go "a"; Level := go "b"; Message := go "c";
                Raw := [] |}]
  /\ ~ In CR (go "a" ++ go "b" ++ go "c" ++ []).
Proof.
  vm_compute. repeat split; try reflexivity. intuition discriminate.
Qed.

(** * Further theorems *)

(** ** The audit trail *)

(** X1: a run of requests adds one call of the database for each request,
    in the order of the run, and one row to the table for each request
    whose INSERT works; the rows that were in the table stay, in their
    order, before the new ones. *)
Theorem audit_trail_of_run (reqs : list (http.Request * Outcomes)) (w : World) :
  let '(resps, w') := serve reqs w in
  length resps = length reqs
  /\ execs (events w') = execs (events w) ++ map recordOf reqs
  /\ delogged w'
     = delogged w ++ map recordOf (List.filter persisted reqs).
Proof.
  pose proof (serve_trail reqs w) as H.
  destruct (serve reqs w) as [resps w']. exact H.
Qed.

(** X2: on every way out of the handler, for [json.Marshal] or any other
    encoder, the status of the record is the status sent: 200, 405 or 500;
    the record has an error message exactly when the status is not 200, and
    that message followed by a newline is the body sent; the bytes sent
    with the status 200 are the response body of the record.  The instant
    and the address of the record are those of the request, its request
    body is the text read (nothing when none was read), and the response
    is the one the client gets. *)
Theorem record_agrees_with_response
        (marshal : slice LogEntry -> result gostring)
        (r : http.Request) (o : Outcomes) (w : World) :
  let '(record, produced) := bodyOutcomeWith marshal r o w in
  StatusCode record = respStatus produced
  /\ (StatusCode record = 200 \/ StatusCode record = 405
      \/ StatusCode record = 500)
  /\ (ErrorMsg record = [] <-> StatusCode record = 200)
  /\ (StatusCode record <> 200 ->
      respBody produced = ErrorMsg record ++ [LF]
      /\ ResponseBody record = None)
  /\ (StatusCode record = 200 ->
      ResponseBody record = Some (respBody produced))
  /\ rTimestamp record = now o
  /\ RemoteAddr record = http.ReqRemoteAddr r
  /\ RequestBody record = recordedBody r
  /\ fst (serveOneWith marshal r o w) = produced.
Proof.
  unfold recordedBody.
  destruct (ways_out marshal r)
    as [Hm|[[Hm [err Hb]]|[[Hm (text & Hb & err & He)]
                          |[Hm (text & Hb & b & He)]]]].
  - rewrite (body_rejected marshal r o w Hm),
      (serveOneWith_rejected marshal r o w Hm).
    rewrite bool_decide_eq_false_2 by exact Hm. cbn.
    splits; auto; try discriminate; try (split; discriminate).
  - rewrite (body_unread marshal r o w err Hm Hb),
      (serveOneWith_unread marshal r o w err Hm Hb).
    rewrite bool_decide_eq_true_2, Hb by exact Hm. cbn.
    splits; auto; try discriminate; try (split; discriminate).
  - rewrite (body_unencoded marshal r o w text err Hm Hb He),
      (serveOneWith_unencoded marshal r o w text err Hm Hb He).
    rewrite bool_decide_eq_true_2, Hb by exact Hm. cbn.
    splits; auto; try discriminate; try (split; discriminate).
  - rewrite (body_encoded marshal r o w text b Hm Hb He),
      (serveOneWith_encoded marshal r o w text b Hm Hb He).
    rewrite bool_decide_eq_true_2, Hb by exact Hm. cbn.
    splits; auto; try congruence; try (split; reflexivity).
Qed.


(** X4: when the body of a POST cannot be read, the response is 500 with
    the text [Could not read request body]; nothing is parsed or encoded:
    between the read and the call of the database there is only the log
    line of the failure; the record has the status 500, that text as its
    error message, and no request or response body. *)
Theorem read_failure_recorded (r : http.Request) (o : Outcomes) (w : World)
        (err : gostring) :
  http.Method r = http.MethodPost -> http.Body r = Err err ->
  let '(resp, w') := serveOne r o w in
  respStatus resp = 500
  /\ respBody resp = go "Could not read request body" ++ [LF]
  /\ exists record,
      events w'
      = events w
        ++ [EvLog (LogReceived (http.ReqRemoteAddr r) (http.Method r)
                               (http.URLPath r));
            EvReadAll;
            EvLog (LogReadError (http.ReqRemoteAddr r) err);
            EvExec record]
        ++ insertLog o
      /\ StatusCode record = 500
      /\ ErrorMsg record = go "Could not read request body"
      /\ RequestBody record = []
      /\ ResponseBody record = None.
Proof.
  intros Hm Hb. unfold serveOne.
  rewrite (serveOneWith_unread Marshal r o w err Hm Hb).
  split; [reflexivity|]. split; [reflexivity|].
  exists (unreadRecord r o). splits; reflexivity.
Qed.

(** X4 at a POST whose body breaks off. *)
Lemma read_failure_witness :
  let r := http.mkRequest http.MethodPost (go "/api/parse")
                          (go "10.0.0.1:5000") (Err (go "unexpected EOF")) in
  (http.Method r = http.MethodPost /\ http.Body r = Err (go "unexpected EOF"))
  /\ respStatus (fst (serveOne r (mkOutcomes 0 None None) (mkWorld [] []))) = 500.
Proof.
  intros r. split; [split; reflexivity|].
  pose proof (read_failure_recorded r (mkOutcomes 0 None None) (mkWorld [] [])
                                    (go "unexpected EOF") eq_refl eq_refl) as H.
  destruct (serveOne r (mkOutcomes 0 None None) (mkWorld [] [])) as [resp w'].
  exact (proj1 H).
Defined.

(** X5: an error of [Write] on the way to the client changes nothing but
    the log: the bytes handed to the writer, the status, the record given
    to the database and the rows of the table are those of a request whose
    write works; the events are the same with one more log line, before
    the last log line of the handler. *)
Theorem write_failure_only_logged (r : http.Request) (o : Outcomes)
        (w : World) (text e : gostring) :
  http.Method r = http.MethodPost -> http.Body r = Ok text ->
  let '(resp, w') := serveOne r (withWriteErr (Some e) o) w in
  let '(resp0, w0) := serveOne r (withWriteErr None o) w in
  resp = resp0
  /\ respStatus resp = 200
  /\ delogged w' = delogged w0
  /\ execs (events w') = execs (events w0)
  /\ exists before after,
      events w0 = before ++ after
      /\ events w'
         = before ++ EvLog (LogWriteError (http.ReqRemoteAddr r) e) :: after
      /\ head after = Some (EvLog (LogSent (http.ReqRemoteAddr r))).
Proof.
  intros Hm Hb.
  rewrite (serveOne_served r (withWriteErr (Some e) o) w text Hm Hb).
  rewrite (serveOne_served r (withWriteErr None o) w text Hm Hb).
  unfold writeLog, insertLog, inserted, servedRecord, encodedRecord.
  cbn [withWriteErr writeErr execErr now].
  split; [reflexivity|]. split; [reflexivity|]. split; [reflexivity|].
  split.
  - cbn [events]. rewrite !execs_app. reflexivity.
  - cbn [events]. eexists (events w ++ [_; _; _]), (_ :: _).
    split; [rewrite <- app_assoc; reflexivity|].
    split; [rewrite <- app_assoc; reflexivity|]. reflexivity.
Qed.

(** X5 at a POST of one line. *)
Lemma write_failure_witness :
  let r := http.mkRequest http.MethodPost (go "/api/parse")
                          (go "10.0.0.1:5000") (Ok (go "[a] [b] c")) in
  let o := mkOutcomes 0 None None in
  (http.Method r = http.MethodPost /\ http.Body r = Ok (go "[a] [b] c"))
  /\ fst (serveOne r (withWriteErr (Some (go "broken pipe")) o) (mkWorld [] []))
     = fst (serveOne r (withWriteErr None o) (mkWorld [] [])).
Proof.
  intros r o. split; [split; reflexivity|].
  pose proof (write_failure_only_logged r o (mkWorld [] []) (go "[a] [b] c")
                (go "broken pipe") eq_refl eq_refl) as H.
  destruct (serveOne r (withWriteErr (Some (go "broken pipe")) o) (mkWorld [] []))
    as [resp w'].
  destruct (serveOne r (withWriteErr None o) (mkWorld [] [])) as [resp0 w0].
  exact (proj1 H).
Defined.

(** X6: every entry of every text is of one of two kinds.  A raw entry has
    the raw line only; the line is not empty, has no newline, is left as
    it is by [strings.TrimSpace] and does not match the pattern.  A
    structured entry has no raw line and a message that is not empty; no
    group has a newline, and the message neither starts nor ends with a
    character of the class [\\s]. *)
Theorem entries_well_formed (text : gostring) :
  Forall (fun e => rawShaped e \/ structuredShaped e)
         (elems (parseLogText text)).
Proof.
  rewrite parseLogText_entries. apply List.Forall_map.
  eapply List.Forall_impl; [|apply trimmedLines_loopLine].
  intros l Hl. exact (proj1 (classify_loopLine l Hl)).
Qed.

(** X7: an entry of a text, written back as a line (the raw line, or the
    three groups in brackets with one space after each closing bracket)
    and parsed again, gives that entry and no other. *)
Theorem entries_reparse (text : gostring) :
  Forall (fun e => parseLogText (canonical e) = Some [e])
         (elems (parseLogText text)).
Proof.
  rewrite parseLogText_entries. apply List.Forall_map.
  eapply List.Forall_impl; [|apply trimmedLines_loopLine].
  intros l Hl. exact (proj2 (classify_loopLine l Hl)).
Qed.

(** X8: the entries of two texts joined by a newline are the entries of
    the first followed by those of the second; the joined text has no
    entry (a nil slice) exactly when neither has one. *)
Theorem parse_by_lines (a b : gostring) :
  elems (parseLogText (a ++ LF :: b))
  = elems (parseLogText a) ++ elems (parseLogText b)
  /\ (parseLogText (a ++ LF :: b) = None
      <-> parseLogText a = None /\ parseLogText b = None).
Proof.
  assert (Hl : trimmedLines (a ++ LF :: b) = trimmedLines a ++ trimmedLines b).
  { unfold trimmedLines. rewrite Split_app, map_app, List.filter_app. reflexivity. }
  split.
  - rewrite !parseLogText_entries, Hl, map_app. reflexivity.
  - rewrite !parseLogText_nil, Hl. split.
    + apply app_eq_nil.
    + intros [-> ->]. reflexivity.
Qed.

(** X9: a text has at most one entry more than it has newlines, and a
    line the loop classifies is a line of the text without the white
    space at its two ends: nothing but white space is left out of a
    line. *)
Theorem entries_from_lines (text : gostring) :
  len (parseLogText text) <= S (count_occ ascii_dec text LF)
  /\ len (parseLogText text) = length (trimmedLines text)
  /\ Forall (fun l => exists seg pre post,
                 In seg (strings.Split text LF)
                 /\ seg = pre ++ l ++ post /\ allSpace pre /\ allSpace post)
            (trimmedLines text).
Proof.
  assert (Hlen : len (parseLogText text) = length (trimmedLines text)).
  { unfold len. rewrite parseLogText_entries, length_map. reflexivity. }
  split; [|split; [exact Hlen | apply trimmedLines_origin]].
  rewrite Hlen, <- Split_length. unfold trimmedLines.
  etransitivity; [apply List.filter_length_le|]. rewrite length_map. reflexivity.
Qed.



(** ** The start of the server *)


(** X13: the connection string has the user, the password and the name of
    the database as the environment gives them, a variable that is not
    set counting as empty, and nothing is escaped: a colon moved from the
    password to the user gives the same string, so that the string does
    not tell the two apart. *)
Theorem connStr_not_escaped (env : gmap gostring gostring)
        (user pass rest : gostring) :
  connStr env
  = go "postgres://" ++ os.Getenv env (go "POSTGRES_USER")
      ++ go ":" ++ os.Getenv env (go "POSTGRES_PASSWORD")
      ++ go "@db:5432/" ++ os.Getenv env (go "POSTGRES_DB_NAME")
      ++ go "?sslmode=disable"
  /\ connStr (delete (go "POSTGRES_PASSWORD") env)
     = connStr (setVar (go "POSTGRES_PASSWORD") [] env)
  /\ connStr (setVar (go "POSTGRES_USER") (user ++ go ":" ++ pass)
                (setVar (go "POSTGRES_PASSWORD") rest env))
     = connStr (setVar (go "POSTGRES_USER") user
                  (setVar (go "POSTGRES_PASSWORD") (pass ++ go ":" ++ rest)
                     env)).
Proof.
  split; [|split].
  - unfold connStr. cbn [app]. repeat (rewrite <- ?app_assoc; cbn [app]).
    reflexivity.
  - unfold connStr, os.Getenv, setVar.
    rewrite lookup_delete_eq, lookup_insert_eq.
    rewrite !lookup_delete_ne, !lookup_insert_ne by discriminate.
    reflexivity.
  - unfold connStr, os.Getenv, setVar.
    rewrite !lookup_insert_eq.
    rewrite !(lookup_insert_ne _ (go "POSTGRES_USER") (go "POSTGRES_PASSWORD"))
      by discriminate.
    rewrite !lookup_insert_eq.
    rewrite !(lookup_insert_ne _ _ (go "POSTGRES_DB_NAME")) by discriminate.
    cbn [default]. unfold id. rewrite <- !app_assoc. reflexivity.
Qed.

(** ** The handler, status by status *)

(** X14: the status of the response tells what was wrong with the request:
    405 exactly for a method other than POST, 500 exactly for a POST whose
    body cannot be read, 200 exactly for a POST whose body is read.  The
    answer [Error creating JSON response] is never sent: [json.Marshal]
    encodes every slice of entries. *)
Theorem status_by_request (r : http.Request) (o : Outcomes) (w : World) :
  let resp := fst (serveOne r o w) in
  (respStatus resp = 405 <-> http.Method r <> http.MethodPost)
  /\ (respStatus resp = 500
      <-> http.Method r = http.MethodPost /\ exists err, http.Body r = Err err)
  /\ (respStatus resp = 200
      <-> http.Method r = http.MethodPost /\ exists text, http.Body r = Ok text)
  /\ respBody resp <> go "Error creating JSON response" ++ [LF].
Proof.
  cbn zeta.
  destruct (decide (http.Method r = http.MethodPost)) as [Hm|Hm].
  - destruct (http.Body r) as [text|err] eqn:Hb.
    + rewrite (serveOne_served r o w text Hm Hb). cbn [fst respStatus respBody].
      splits.
      * split; [discriminate | contradiction].
      * split; [discriminate | intros [_ [err [=]]]].
      * split; eauto.
      * destruct (parseLogText text); discriminate.
    + unfold serveOne. rewrite (serveOneWith_unread Marshal r o w err Hm Hb).
      cbn [fst respStatus respBody]. splits.
      * split; [discriminate | contradiction].
      * split; eauto.
      * split; [discriminate | intros [_ [text [=]]]].
      * discriminate.
  - rewrite (serveOne_rejected r o w Hm). cbn [fst respStatus respBody].
    splits.
    + split; auto.
    + split; [discriminate | intros [H _]; contradiction].
    + split; [discriminate | intros [H _]; contradiction].
    + discriminate.
Qed.

(** X15: the call of the database is the last thing a request does, after
    the response is written and logged, whatever the encoder: the events
    of a request start with the log line of its arrival and end with the
    INSERT of the record as the body of the handler left it, followed
    only by the log line of a failed INSERT; the body of the request is
    read exactly when the method is POST. *)
Theorem record_inserted_last
        (marshal : slice LogEntry -> result gostring)
        (r : http.Request) (o : Outcomes) (w : World) :
  exists mid,
    events (snd (serveOneWith marshal r o w))
    = events w
      ++ EvLog (LogReceived (http.ReqRemoteAddr r) (http.Method r)
                            (http.URLPath r))
      :: mid
      ++ EvExec (fst (bodyOutcomeWith marshal r o w)) :: insertLog o
    /\ execs mid = []
    /\ (In EvReadAll mid <-> http.Method r = http.MethodPost).
Proof.
  destruct (ways_out marshal r)
    as [Hm|[[Hm [err Hb]]|[[Hm (text & Hb & err & He)]
                          |[Hm (text & Hb & b & He)]]]].
  - rewrite (body_rejected marshal r o w Hm),
      (serveOneWith_rejected marshal r o w Hm).
    exists [EvLog (LogRejected (http.ReqRemoteAddr r) (http.Method r))].
    splits; try reflexivity.
    split; [intros [[=]|[]] | contradiction].
  - rewrite (body_unread marshal r o w err Hm Hb),
      (serveOneWith_unread marshal r o w err Hm Hb).
    exists [EvReadAll; EvLog (LogReadError (http.ReqRemoteAddr r) err)].
    splits; try reflexivity. split; [auto | intros _; left; reflexivity].
  - rewrite (body_unencoded marshal r o w text err Hm Hb He),
      (serveOneWith_unencoded marshal r o w text err Hm Hb He).
    exists [EvReadAll; EvLog (LogSize (length text));
            EvLog (LogMarshalError (http.ReqRemoteAddr r) err)].
    splits; try reflexivity. split; [auto | intros _; left; reflexivity].
  - rewrite (body_encoded marshal r o w text b Hm Hb He),
      (serveOneWith_encoded marshal r o w text b Hm Hb He).
    exists ([EvReadAll; EvLog (LogSize (length text))] ++ writeLog r o
            ++ [EvLog (LogSent (http.ReqRemoteAddr r))]).
    splits.
    + cbn [snd events fst]. repeat (rewrite <- ?app_assoc; cbn [app]).
      reflexivity.
    + rewrite !execs_app, execs_writeLog. reflexivity.
    + split; [auto | intros _; left; reflexivity].
Qed.
